(** * Lantern dashboard: the traffic route (GET /api/traffic)

    A shallow embedding of the traffic classification and aggregation
    code of the dashboard (port table, [categorizePort], the category
    builder and the [GET] handler) together with the properties that its
    specification states about it.

    Conventions of the embedding:
    - JavaScript numbers that hold SQL integers (ports, counts, byte
      totals) are [Z]; the result of [parseInt], which may be [NaN], is
      a [JSNum];
    - strings are [string]; a template literal [`Port ${port}`] is a
      concatenation with the decimal rendering of the number;
    - the static object [portCategories] (a [Record<number, ...>]) is a
      [gmap Z _] built from the literal's entries;
    - the [Map<string, CategorySummary>] of the category builder is an
      association list in insertion order, because the order in which
      [Map.prototype.values] yields the entries decides the tie-breaks;
    - [Array.prototype.sort] is a stable sort (ECMAScript 2019 and
      later); it is embedded as a stable insertion sort driven by the
      comparator function. *)

From Stdlib Require Import ZArith List Ascii String Sorting.Sorted Permutation.
From stdpp Require Import base numbers option list gmap strings fin_maps pretty sorting.

#[local] Set Warnings "-clear-no-such-hyp".

Local Open Scope string_scope.
Local Open Scope list_scope.
Local Open Scope Z_scope.

(** ** Rows returned by the store (interfaces at the top of the route) *)

Record ProtocolRow := mkProtocolRow {
  pr_protocol : string;
  pr_count : Z
}.

Record PortRow := mkPortRow {
  port : Z;
  protocol : string;
  count : Z
}.

Record TalkerRow := mkTalkerRow {
  ip : string;
  bytes_sent : Z;
  bytes_received : Z;
  packets_sent : Z;
  packets_received : Z
}.

Record DNSRow := mkDNSRow {
  domain : string;
  query_count : Z
}.

Record DestRow := mkDestRow {
  address : string;
  connection_count : Z;
  bytes_total : Z
}.

(** ** The port table and [categorizePort] *)

(** The value type of [portCategories], also the result of
    [categorizePort]. *)
Record PortInfo := mkPortInfo {
  category : string;
  service : string
}.

Global Instance PortInfo_eq_dec : EqDecision PortInfo.
Proof. solve_decision. Defined.

(** The entries of the object literal [portCategories], in source order. *)
Definition portCategories_entries : list (Z * PortInfo) :=
  [ (* Web *)
    (80, mkPortInfo "Web" "HTTP");
    (443, mkPortInfo "Web" "HTTPS");
    (8080, mkPortInfo "Web" "HTTP Proxy");
    (8443, mkPortInfo "Web" "HTTPS Alt");
    (3000, mkPortInfo "Web" "Dev Server");
    (5000, mkPortInfo "Web" "Dev Server");
    (* Database *)
    (3306, mkPortInfo "Database" "MySQL");
    (5432, mkPortInfo "Database" "PostgreSQL");
    (27017, mkPortInfo "Database" "MongoDB");
    (6379, mkPortInfo "Database" "Redis");
    (1433, mkPortInfo "Database" "SQL Server");
    (1521, mkPortInfo "Database" "Oracle");
    (* Email *)
    (25, mkPortInfo "Email" "SMTP");
    (465, mkPortInfo "Email" "SMTPS");
    (587, mkPortInfo "Email" "SMTP Submission");
    (110, mkPortInfo "Email" "POP3");
    (995, mkPortInfo "Email" "POP3S");
    (143, mkPortInfo "Email" "IMAP");
    (993, mkPortInfo "Email" "IMAPS");
    (* File Sharing *)
    (21, mkPortInfo "File Sharing" "FTP");
    (22, mkPortInfo "Remote Access" "SSH");
    (445, mkPortInfo "File Sharing" "SMB");
    (139, mkPortInfo "File Sharing" "NetBIOS");
    (2049, mkPortInfo "File Sharing" "NFS");
    (* DNS & Network *)
    (53, mkPortInfo "DNS" "DNS");
    (67, mkPortInfo "Network" "DHCP Server");
    (68, mkPortInfo "Network" "DHCP Client");
    (123, mkPortInfo "Network" "NTP");
    (161, mkPortInfo "Network" "SNMP");
    (* Streaming & Media *)
    (554, mkPortInfo "Streaming" "RTSP");
    (1935, mkPortInfo "Streaming" "RTMP");
    (5004, mkPortInfo "Streaming" "RTP");
    (5005, mkPortInfo "Streaming" "RTP");
    (* Messaging & VoIP *)
    (5060, mkPortInfo "VoIP" "SIP");
    (5061, mkPortInfo "VoIP" "SIP TLS");
    (3478, mkPortInfo "VoIP" "STUN");
    (5222, mkPortInfo "Messaging" "XMPP");
    (* Remote Access *)
    (23, mkPortInfo "Remote Access" "Telnet");
    (3389, mkPortInfo "Remote Access" "RDP");
    (5900, mkPortInfo "Remote Access" "VNC");
    (* Discovery *)
    (5353, mkPortInfo "Discovery" "mDNS");
    (1900, mkPortInfo "Discovery" "SSDP/UPnP");
    (5355, mkPortInfo "Discovery" "LLMNR");
    (137, mkPortInfo "Discovery" "NetBIOS NS");
    (138, mkPortInfo "Discovery" "NetBIOS DG") ].

Definition portCategories : gmap Z PortInfo :=
  list_to_map portCategories_entries.

(** The template literal [`Port ${port}`]. *)
Definition port_label (port : Z) : string := "Port " +:+ pretty port.

(** [categorizePort]: every table value is an object, hence truthy, so
    the test [if (portCategories[port])] is the test that the key is
    present. *)
Definition categorizePort (port : Z) : PortInfo :=
  match portCategories !! port with
  | Some info => info
  | None =>
      if bool_decide (port >= 1024) && bool_decide (port <= 49151)
      then mkPortInfo "Application" (port_label port)
      else if bool_decide (port >= 49152)
      then mkPortInfo "Ephemeral" (port_label port)
      else mkPortInfo "Other" (port_label port)
  end.

(** The categories that occur in the table, and the three categories of
    the range rules. *)
Definition table_categories : list string :=
  [ "Web"; "Database"; "Email"; "File Sharing"; "Remote Access"; "DNS";
    "Network"; "Streaming"; "VoIP"; "Messaging"; "Discovery" ].

Definition heuristic_categories : list string :=
  [ "Application"; "Ephemeral"; "Other" ].

Definition known_categories : list string :=
  (table_categories ++ heuristic_categories)%list.

(** ** Arrays: [Array.prototype.sort] and [Array.prototype.slice] *)

Section ArraySort.
Context {A : Type}.
(** The comparator: a negative or zero result keeps the first argument
    in front, a positive result moves it behind the second. *)
Variable compareFn : A → A → Z.

Fixpoint sort_insert (x : A) (sorted : list A) : list A :=
  match sorted with
  | [] => [x]
  | y :: rest =>
      if bool_decide (compareFn x y ≤ 0) then x :: y :: rest
      else y :: sort_insert x rest
  end.

(** [arr.sort(compareFn)]: elements are inserted from the last to the
    first, each in front of the elements it does not follow, so equal
    elements keep their order. *)
Definition array_sort (arr : list A) : list A := foldr sort_insert [] arr.
End ArraySort.

(** [arr.slice(0, n)]. *)
Definition slice0 {A : Type} (n : nat) (arr : list A) : list A := take n arr.

(** The comparator [(a, b) => b.count - a.count] for a count extractor. *)
Definition by_count_desc {A : Type} (cnt : A → Z) : A → A → Z :=
  λ a b, cnt b - cnt a.

(** The order that this comparator produces: "a is not ranked below b". *)
Definition count_ge {A : Type} (cnt : A → Z) (a b : A) : Prop := cnt b ≤ cnt a.

(** The ranking idiom of the route, [.sort((a, b) => b.count - a.count)
    .slice(0, n)], for any element type and count extractor. *)
Definition topN {A : Type} (cnt : A → Z) (n : nat) (items : list A) : list A :=
  slice0 n (array_sort (by_count_desc cnt) items).

(** ** The category builder *)

(** An element of [CategorySummary.ports]. *)
Record PortEntry := mkPortEntry {
  pe_port : Z;
  pe_service : string;
  pe_count : Z
}.

Record CategorySummary := mkCategorySummary {
  cat_category : string;
  cat_count : Z;
  cat_ports : list PortEntry
}.

Global Instance PortEntry_eq_dec : EqDecision PortEntry.
Proof. solve_decision. Defined.

Global Instance CategorySummary_eq_dec : EqDecision CategorySummary.
Proof. solve_decision. Defined.

(** A JavaScript [Map] with string keys: the entries in insertion order. *)
Definition JSMap (V : Type) : Type := list (string * V).

Fixpoint map_has {V} (k : string) (m : JSMap V) : bool :=
  match m with
  | [] => false
  | (k', _) :: m' => if decide (k' = k) then true else map_has k m'
  end.

Fixpoint map_get {V} (k : string) (m : JSMap V) : option V :=
  match m with
  | [] => None
  | (k', v) :: m' => if decide (k' = k) then Some v else map_get k m'
  end.

(** [m.set(k, v)]: an existing key keeps its position, a new key goes
    last. *)
Fixpoint map_set {V} (k : string) (v : V) (m : JSMap V) : JSMap V :=
  match m with
  | [] => [(k, v)]
  | (k', v') :: m' =>
      if decide (k' = k) then (k, v) :: m' else (k', v') :: map_set k v m'
  end.

(** [Array.from(m.values())]. *)
Definition map_values {V} (m : JSMap V) : list V := m.*2.

(** The object pushed on [cat.ports]. *)
Definition port_entry (row : PortRow) : PortEntry :=
  {| pe_port := port row;
     pe_service := service (categorizePort (port row));
     pe_count := count row |}.

(** One iteration of [for (const port of ports)]. The summary object is
    shared between the map and [cat], so the two updates of [cat] are an
    update of the map entry, which keeps its position. After the
    conditional [set] the key is present; the [None] branch stands for
    the non-null assertion and is never taken
    ([categoryMap_step_get]). *)
Definition categoryMap_step (categoryMap : JSMap CategorySummary)
    (row : PortRow) : JSMap CategorySummary :=
  let info := categorizePort (port row) in
  let categoryMap :=
    if negb (map_has (category info) categoryMap)
    then map_set (category info)
           {| cat_category := category info; cat_count := 0; cat_ports := [] |}
           categoryMap
    else categoryMap in
  match map_get (category info) categoryMap with
  | Some cat =>
      map_set (category info)
        {| cat_category := cat_category cat;
           cat_count := cat_count cat + count row;
           cat_ports := cat_ports cat ++ [port_entry row] |}
        categoryMap
  | None => categoryMap
  end.

(** The map after the loop over [ports]. *)
Definition buildCategoryMap (ports : list PortRow) : JSMap CategorySummary :=
  foldl categoryMap_step [] ports.

(** [{ ...cat, ports: cat.ports.sort(...).slice(0, 5) }]. *)
Definition top5_ports (cat : CategorySummary) : CategorySummary :=
  {| cat_category := cat_category cat;
     cat_count := cat_count cat;
     cat_ports := slice0 5 (array_sort (by_count_desc pe_count) (cat_ports cat)) |}.

(** The constant [categories] of the route, as a function of [ports]. *)
Definition buildCategories (ports : list PortRow) : list CategorySummary :=
  top5_ports <$>
    array_sort (by_count_desc cat_count) (map_values (buildCategoryMap ports)).

Global Arguments categorizePort : simpl never.
Global Arguments portCategories : simpl never.

(** *** Vocabulary for the properties of the category builder *)

(** The category that [categorizePort] gives to the port of a row. *)
Definition category_of (row : PortRow) : string :=
  category (categorizePort (port row)).

(** The rows of [L] that are classified into category [c], in the order
    of [L]. *)
Definition rows_in (c : string) (L : list PortRow) : list PortRow :=
  filter (λ row, category_of row = c) L.

Definition sum_Z (l : list Z) : Z := foldr Z.add 0 l.

(** The categories of the rows of [L], each once, in the order in which
    the loop meets them first. *)
Definition first_seen (L : list PortRow) : list string :=
  foldl (λ seen row,
           if decide (category_of row ∈ seen) then seen
           else seen ++ [category_of row]) [] L.

Global Arguments category_of : simpl never.

(** The summary of category [c] once the loop has run over [L]. *)
Definition summary_of (L : list PortRow) (c : string) : CategorySummary :=
  {| cat_category := c;
     cat_count := sum_Z (count <$> rows_in c L);
     cat_ports := port_entry <$> rows_in c L |}.

(** ** The capture scope: [searchParams.get] and [parseInt] *)

(** A JavaScript number that is either an integer or [NaN]. *)
Inductive JSNum :=
  | NaN
  | Num (z : Z).

Global Instance JSNum_eq_dec : EqDecision JSNum.
Proof. solve_decision. Defined.

(** The ASCII members of the white space that [parseInt] skips. *)
Definition is_white_space (c : ascii) : bool :=
  let n := Z.of_N (N_of_ascii c) in
  bool_decide (9 ≤ n ≤ 13) || bool_decide (n = 32).

Fixpoint trim_start (s : string) : string :=
  match s with
  | String c s' => if is_white_space c then trim_start s' else s
  | EmptyString => EmptyString
  end.

Definition digit_value (c : ascii) : option Z :=
  let n := Z.of_N (N_of_ascii c) in
  if bool_decide (48 ≤ n ≤ 57) then Some (n - 48)
  else if bool_decide (97 ≤ n ≤ 122) then Some (n - 87)
  else if bool_decide (65 ≤ n ≤ 90) then Some (n - 55)
  else None.

(** The value of the longest prefix of digits of the radix; [acc] is
    [None] as long as no digit was read. *)
Fixpoint parse_digits (radix : Z) (s : string) (acc : option Z) : option Z :=
  match s with
  | String c s' =>
      match digit_value c with
      | Some d =>
          if bool_decide (d < radix)
          then parse_digits radix s' (Some (default 0 acc * radix + d))
          else acc
      | None => acc
      end
  | EmptyString => acc
  end.

(** [parseInt(string)] with no radix argument: white space, a sign, an
    optional [0x] prefix, then the longest prefix of digits; [NaN] when
    there is no digit. The integer is exact (no rounding to a double)
    and a negative zero is zero. *)
Definition parseInt (input : string) : JSNum :=
  let str := trim_start input in
  let '(sign, str) :=
    match str with
    | String "-"%char rest => (-1, rest)
    | String "+"%char rest => (1, rest)
    | _ => (1, str)
    end in
  let '(radix, str) :=
    match str with
    | String "0"%char (String "x"%char rest) => (16, rest)
    | String "0"%char (String "X"%char rest) => (16, rest)
    | _ => (10, str)
    end in
  match parse_digits radix str None with
  | Some mathInt => Num (sign * mathInt)
  | None => NaN
  end.

(** [if (captureId)] for [captureId : string | null]: true for a string
    that is not empty. *)
Definition truthy (captureId : option string) : bool :=
  match captureId with
  | Some s => negb (bool_decide (s = EmptyString))
  | None => false
  end.

(** The parameter array of a query: [parseInt(captureId)] is pushed
    when [captureId] is truthy. *)
Definition scope_params (captureId : option string) : list JSNum :=
  match captureId with
  | Some s => if truthy captureId then [parseInt s] else []
  | None => []
  end.

(** ** The store interface ([getDB], [getAll]) and the queries *)

Inductive Table :=
  | tbl_protocol_counts
  | tbl_top_ports
  | tbl_top_talkers
  | tbl_dns_domains
  | tbl_destinations.

Global Instance Table_eq_dec : EqDecision Table.
Proof. solve_decision. Defined.

(** The row type [T] of [getAll<T>] for the query on each table. *)
Definition RowOf (t : Table) : Type :=
  match t with
  | tbl_protocol_counts => ProtocolRow
  | tbl_top_ports => PortRow
  | tbl_top_talkers => TalkerRow
  | tbl_dns_domains => DNSRow
  | tbl_destinations => DestRow
  end.

(** The parts in which the five query strings differ besides the table:
    whether [' WHERE capture_id = ?'] was appended and the [LIMIT]. The
    selected columns, [GROUP BY] and [ORDER BY ... DESC] are fixed for
    each table. *)
Record Query := mkQuery {
  q_where : bool;
  q_limit : option nat
}.

Global Instance Query_eq_dec : EqDecision Query.
Proof. solve_decision. Defined.

(** One call of [getAll]: the table, the query and the parameters. *)
Record Access := mkAccess {
  acc_table : Table;
  acc_query : Query;
  acc_params : list JSNum
}.

Global Instance Access_eq_dec : EqDecision Access.
Proof. solve_decision. Defined.

(** Code of the route: it may throw ([None]) and it records the calls
    of [getAll] it has made. *)
Definition Route (A : Type) : Type := list Access → option A * list Access.

Global Instance Route_ret : MRet Route := λ A a log, (Some a, log).

Global Instance Route_bind : MBind Route := λ A B k m log,
  match m log with
  | (Some a, log') => k a log'
  | (None, log') => (None, log')
  end.

(** ** The response *)

(** The object passed to [NextResponse.json] on success. *)
Record TrafficData := mkTrafficData {
  protocols : list ProtocolRow;
  ports : list PortRow;
  talkers : list TalkerRow;
  dnsDomains : list DNSRow;
  destinations : list DestRow;
  categories : list CategorySummary
}.

Inductive JsonBody :=
  | TrafficBody (data : TrafficData)
  | ErrorBody (error : string).

Record Response := mkResponse {
  status : Z;
  body : JsonBody
}.

(** ** The handler [GET] *)

Section Handler.
Context {DB : Type}.
(** [await getDB()]: [None] when the promise rejects. *)
Variable getDB : option DB.
(** [getAll<T>(db, query, params)]: [None] when it throws. *)
Variable getAll :
  DB → ∀ t : Table, Query → list JSNum → option (list (RowOf t)).

Definition call_getDB : Route DB := λ log, (getDB, log).

Definition call_getAll (db : DB) (t : Table) (q : Query)
    (params : list JSNum) : Route (list (RowOf t)) :=
  λ log, (getAll db t q params, (log ++ [mkAccess t q params])%list).

(** The body of the [try] block. *)
Definition GET_try (captureId : option string) : Route TrafficData :=
  db ← call_getDB;
  protocols ← call_getAll db tbl_protocol_counts
    (mkQuery (truthy captureId) None) (scope_params captureId);
  ports ← call_getAll db tbl_top_ports
    (mkQuery (truthy captureId) (Some 20%nat)) (scope_params captureId);
  talkers ← call_getAll db tbl_top_talkers
    (mkQuery (truthy captureId) (Some 20%nat)) (scope_params captureId);
  dnsDomains ← call_getAll db tbl_dns_domains
    (mkQuery (truthy captureId) (Some 50%nat)) (scope_params captureId);
  destinations ← call_getAll db tbl_destinations
    (mkQuery (truthy captureId) (Some 20%nat)) (scope_params captureId);
  let categories := buildCategories ports in
  mret {| protocols := protocols;
          ports := ports;
          talkers := talkers;
          dnsDomains := dnsDomains;
          destinations := destinations;
          categories := categories |}.

(** [GET]: the [try] block and the [catch] clause. The result is the
    response and the calls of [getAll] made for it. *)
Definition GET (captureId : option string) : Response * list Access :=
  match GET_try captureId [] with
  | (Some data, log) => (mkResponse 200 (TrafficBody data), log)
  | (None, log) =>
      (mkResponse 500 (ErrorBody "Failed to fetch traffic data"), log)
  end.
End Handler.

(** *** Vocabulary for the properties of the handler *)

(** The [LIMIT] of the query that [GET] builds for each table. *)
Definition limit_of (t : Table) : option nat :=
  match t with
  | tbl_protocol_counts => None
  | tbl_top_ports => Some 20%nat
  | tbl_top_talkers => Some 20%nat
  | tbl_dns_domains => Some 50%nat
  | tbl_destinations => Some 20%nat
  end.

(** The query that [GET] builds for each table. *)
Definition query_for (t : Table) (captureId : option string) : Query :=
  mkQuery (truthy captureId) (limit_of t).

Definition all_tables : list Table :=
  [ tbl_protocol_counts; tbl_top_ports; tbl_top_talkers; tbl_dns_domains;
    tbl_destinations ].

(** The five reads of a request, in the order of the source. *)
Definition reads_of (captureId : option string) : list Access :=
  (λ t, mkAccess t (query_for t captureId) (scope_params captureId))
    <$> all_tables.

(** The type of [getAll] over a database handle [DB]. *)
Abbreviation GetAll DB :=
  (DB → ∀ t : Table, Query → list JSNum → option (list (RowOf t))).

(** The read of table [t] that [GET] issues for [captureId]. *)
Abbreviation read getAll db captureId t :=
  (getAll db t (query_for t captureId) (scope_params captureId)).

(** The response of the [catch] clause. *)
Definition error_response : Response :=
  mkResponse 500 (ErrorBody "Failed to fetch traffic data").

(** The keys of the object literal passed to [NextResponse.json]. *)
Definition top_level_fields (b : JsonBody) : list string :=
  match b with
  | TrafficBody _ =>
      [ "protocols"; "ports"; "talkers"; "dnsDomains"; "destinations";
        "categories" ]
  | ErrorBody _ => [ "error" ]
  end.

(** ** A model of the store *)

Section GroupBy.
Context {R K : Type} `{EqDecision K}.
Variable key : R → K.
(** Adds the summed columns of the second row to the first. *)
Variable add : R → R → R.

(** Modelled from the spec: the grouping step of the store, which is
    not part of the sources; a row joins the group of its key or opens
    a new group after the existing ones. *)
Fixpoint group_insert (r : R) (groups : list R) : list R :=
  match groups with
  | [] => [r]
  | g :: groups' =>
      if decide (key g = key r) then add g r :: groups'
      else g :: group_insert r groups'
  end.

(** Modelled from the spec: [GROUP BY key] with [SUM] columns as the
    store evaluates it (section 4.2), one row for each key. *)
Definition group_by (rows : list R) : list R :=
  foldl (λ groups r, group_insert r groups) [] rows.
End GroupBy.

(** Modelled from the spec: the contents of the database, which
    [@/lib/db/client] opens and which is not part of the sources. Each
    stored row of a table is its [capture_id] and the columns that the
    query on the table selects (section 3 of the specification). *)
Definition Database : Type := ∀ t : Table, list (Z * RowOf t).

(** Modelled from the spec: the scope filter of the store, which is not
    part of the sources. [WHERE capture_id = ?] keeps the rows of the
    capture; a number that is [NaN], or a missing parameter, equals no
    [capture_id] (sections 4.2 and 9: a non-numeric scope "may silently
    become a no-match filter"). *)
Definition sql_where {R : Type} (q : Query) (params : list JSNum)
    (rows : list (Z * R)) : list R :=
  if q_where q
  then (filter (λ r, params !! 0%nat = Some (Num r.1)) rows).*2
  else rows.*2.

(** Modelled from the spec: [LIMIT n] as the store evaluates it, the
    first [n] rows (section 4.2, "limit to top 20"). *)
Definition sql_limit {R : Type} (q : Query) (rows : list R) : list R :=
  match q_limit q with
  | Some n => take n rows
  | None => rows
  end.

(** Modelled from the spec: the [SUM] columns of each table (sections 3
    and 4.2); the first row of a group keeps the key columns. *)
Definition add_protocol (a b : ProtocolRow) : ProtocolRow :=
  mkProtocolRow (pr_protocol a) (pr_count a + pr_count b).

Definition add_port (a b : PortRow) : PortRow :=
  mkPortRow (port a) (protocol a) (count a + count b).

Definition add_talker (a b : TalkerRow) : TalkerRow :=
  mkTalkerRow (ip a) (bytes_sent a + bytes_sent b)
    (bytes_received a + bytes_received b)
    (packets_sent a + packets_sent b)
    (packets_received a + packets_received b).

Definition add_dns (a b : DNSRow) : DNSRow :=
  mkDNSRow (domain a) (query_count a + query_count b).

Definition add_dest (a b : DestRow) : DestRow :=
  mkDestRow (address a) (connection_count a + connection_count b)
    (bytes_total a + bytes_total b).

(** Modelled from the spec: the grouped sums that the store computes for
    the query on each table (section 4.2 of the specification): group by
    the key, sum the measures, sort descending by the ranking measure,
    ties in first-seen order (section 4.3). *)
Definition sql_aggregate (t : Table) : list (RowOf t) → list (RowOf t) :=
  match t with
  | tbl_protocol_counts => λ rows,
      array_sort (by_count_desc pr_count)
        (group_by pr_protocol add_protocol rows)
  | tbl_top_ports => λ rows,
      array_sort (by_count_desc count)
        (group_by (λ r, (port r, protocol r)) add_port rows)
  | tbl_top_talkers => λ rows,
      array_sort (by_count_desc (λ r, bytes_sent r + bytes_received r))
        (group_by ip add_talker rows)
  | tbl_dns_domains => λ rows,
      array_sort (by_count_desc query_count)
        (group_by domain add_dns rows)
  | tbl_destinations => λ rows,
      array_sort (by_count_desc bytes_total)
        (group_by address add_dest rows)
  end.

(** Modelled from the spec: [getAll] of [@/lib/db/client], which is not
    part of the sources, as the evaluation of the query on the database:
    the scope filter, the grouped sums, then the limit. This store never
    throws. *)
Definition sql_getAll (db : Database) (t : Table) (q : Query)
    (params : list JSNum) : option (list (RowOf t)) :=
  Some (sql_limit q (sql_aggregate t (sql_where q params (db t)))).

(** Modelled from the spec: the same store with a read of table [bad]
    that throws ("StoreUnavailable", section 7). *)
Definition sql_getAll_failing_on (bad : Table) : GetAll Database :=
  λ db t q params,
    if decide (t = bad) then None else sql_getAll db t q params.

(** A store contract: a read that succeeds returns no more rows than
    the [LIMIT] of its query. *)
Definition honours_limit {DB : Type} (getAll : GetAll DB) : Prop :=
  ∀ db t q params rows n,
    getAll db t q params = Some rows → q_limit q = Some n →
    (length rows ≤ n)%nat.

(** An example database: two captures. *)
Definition example_db : Database := λ t,
  match t with
  | tbl_protocol_counts =>
      [ (1, mkProtocolRow "TCP" 180); (1, mkProtocolRow "UDP" 5);
        (2, mkProtocolRow "TCP" 7) ]
  | tbl_top_ports =>
      [ (1, mkPortRow 80 "TCP" 100); (1, mkPortRow 443 "TCP" 50);
        (1, mkPortRow 22 "TCP" 30); (2, mkPortRow 54321 "TCP" 5);
        (2, mkPortRow 80 "TCP" 2) ]
  | tbl_top_talkers =>
      [ (1, mkTalkerRow "10.0.0.5" 1000 2000 10 20);
        (1, mkTalkerRow "10.0.0.9" 500 500 5 5) ]
  | tbl_dns_domains => [ (1, mkDNSRow "example.org" 4) ]
  | tbl_destinations => [ (1, mkDestRow "93.184.216.34" 3 4096) ]
  end.

Definition empty_db : Database := λ t, [].

(** ** The rules of [categorizePort], in the order of its tests *)

Inductive Rule :=
  | TableEntry
  | RegisteredRange
  | EphemeralRange
  | Remaining.

(** The test of each rule as [categorizePort] writes it. *)
Definition rule_test (r : Rule) (p : Z) : Prop :=
  match r with
  | TableEntry => is_Some (portCategories !! p)
  | RegisteredRange => 1024 ≤ p ≤ 49151
  | EphemeralRange => 49152 ≤ p
  | Remaining => True
  end.

Definition earlier_rules (r : Rule) : list Rule :=
  match r with
  | TableEntry => []
  | RegisteredRange => [TableEntry]
  | EphemeralRange => [TableEntry; RegisteredRange]
  | Remaining => [TableEntry; RegisteredRange; EphemeralRange]
  end.

(** A rule fires when its test holds and no earlier test does. *)
Definition rule_fires (r : Rule) (p : Z) : Prop :=
  rule_test r p ∧ Forall (λ r', ¬ rule_test r' p) (earlier_rules r).

(** What each rule returns. *)
Definition rule_yields (r : Rule) (p : Z) (info : PortInfo) : Prop :=
  match r with
  | TableEntry => portCategories !! p = Some info
  | RegisteredRange => info = mkPortInfo "Application" (port_label p)
  | EphemeralRange => info = mkPortInfo "Ephemeral" (port_label p)
  | Remaining => info = mkPortInfo "Other" (port_label p)
  end.

(** ** The capture context ([CaptureProvider], [CaptureSelector]) *)

Record Capture := mkCapture {
  cap_id : Z;
  sensor_hostname : string;
  interface_name : string;
  start_time : string;
  duration_seconds : Z;
  packet_count : Z;
  device_count : Z
}.

(** The value of the context: the three pieces of state of
    [CaptureProvider]. *)
Record CaptureContextType := mkCaptureContext {
  captures : list Capture;
  selectedCaptureId : option Z;
  loading : bool
}.

(** The state at mount: [useState([])], [useState(null)],
    [useState(true)]. *)
Definition initial_context : CaptureContextType :=
  mkCaptureContext [] None true.

(** What [fetch('/api/captures')] followed by [res.json()] gives:
    a rejection, or a JSON value that is an array of captures or is
    something else. *)
Inductive CapturesFetch :=
  | FetchRejected
  | FetchJson (data : option (list Capture)).

(** [fetchCaptures]: a non-empty array replaces the captures and selects
    the first one; anything else is ignored or caught; [finally] clears
    [loading]. *)
Definition fetchCaptures (outcome : CapturesFetch)
    (ctx : CaptureContextType) : CaptureContextType :=
  match outcome with
  | FetchJson (Some (first :: rest)) =>
      mkCaptureContext (first :: rest) (Some (cap_id first)) false
  | _ => mkCaptureContext (captures ctx) (selectedCaptureId ctx) false
  end.

(** The [onChange] of the select of [CaptureSelector]. Its options are
    the captures with [value={capture.id}], so the value of the event is
    the rendering of the id of the option picked and [Number] of it is
    that id again. *)
Definition onChange (picked : Capture) (ctx : CaptureContextType)
    : CaptureContextType :=
  mkCaptureContext (captures ctx) (Some (cap_id picked)) (loading ctx).

(** [captures.find(c => c.id === selectedCaptureId)]. *)
Definition selectedCapture (ctx : CaptureContextType) : option Capture :=
  snd <$> list_find (λ c, Some (cap_id c) = selectedCaptureId ctx)
            (captures ctx).

(** The states that the provider goes through: the fetch settles, and
    once the select is shown (captures loaded) the user picks one of its
    options. *)
Inductive context_step : CaptureContextType → CaptureContextType → Prop :=
  | step_fetch outcome ctx :
      context_step ctx (fetchCaptures outcome ctx)
  | step_select picked ctx :
      loading ctx = false → picked ∈ captures ctx →
      context_step ctx (onChange picked ctx).

Definition context_reachable : CaptureContextType → Prop :=
  rtc context_step initial_context.

(** The selection refers to a loaded capture: nothing is selected
    exactly when there are no captures, and a selected id is the id of
    one of the captures. *)
Definition selection_valid (ctx : CaptureContextType) : Prop :=
  (selectedCaptureId ctx = None ↔ captures ctx = []) ∧
  (∀ id, selectedCaptureId ctx = Some id →
         ∃ c, c ∈ captures ctx ∧ cap_id c = id).

(** ** The pages that call the route *)


(** [x || 0] for a number [x]. *)
Definition or_zero (x : Z) : Z := if bool_decide (x = 0) then 0 else x.

(** [totalTraffic] of the network page,
    [data?.protocols.reduce((sum, p) => sum + p.count, 0) || 0], where
    [data] is [null] or the JSON body received. The body of the error
    response has no [protocols], and [reduce] of [undefined] throws a
    [TypeError]: [None]. *)
Definition totalTraffic (data : option JsonBody) : option Z :=
  match data with
  | None => Some (or_zero 0)
  | Some (TrafficBody d) =>
      Some (or_zero (foldl (λ sum p, sum + pr_count p) 0 (protocols d)))
  | Some (ErrorBody _) => None
  end.

(** [totalCategoryTraffic] of the network page,
    [data?.categories?.reduce((sum, c) => sum + c.count, 0) || 0]. *)
Definition totalCategoryTraffic (data : option JsonBody) : Z :=
  match data with
  | Some (TrafficBody d) =>
      or_zero (foldl (λ sum c, sum + cat_count c) 0 (categories d))
  | _ => or_zero 0
  end.

(** The palette of one category of the network page. *)
Record CategoryColor := mkCategoryColor {
  bg : string;
  text : string;
  icon : string
}.

(** The own properties of [categoryColors] of the network page. *)
Definition categoryColors_entries : list (string * CategoryColor) :=
  [ ("Web", mkCategoryColor "bg-cyan-100" "text-cyan-700" "🌐");
    ("Database", mkCategoryColor "bg-violet-100" "text-violet-700" "🗄️");
    ("Email", mkCategoryColor "bg-amber-100" "text-amber-700" "📧");
    ("File Sharing",
     mkCategoryColor "bg-emerald-100" "text-emerald-700" "📁");
    ("Remote Access", mkCategoryColor "bg-rose-100" "text-rose-700" "🖥️");
    ("DNS", mkCategoryColor "bg-blue-100" "text-blue-700" "🔍");
    ("Network", mkCategoryColor "bg-slate-100" "text-slate-700" "🔗");
    ("Streaming", mkCategoryColor "bg-pink-100" "text-pink-700" "📺");
    ("VoIP", mkCategoryColor "bg-indigo-100" "text-indigo-700" "📞");
    ("Messaging", mkCategoryColor "bg-teal-100" "text-teal-700" "💬");
    ("Discovery", mkCategoryColor "bg-orange-100" "text-orange-700" "📡");
    ("Application", mkCategoryColor "bg-gray-100" "text-gray-700" "📦");
    ("Ephemeral", mkCategoryColor "bg-gray-100" "text-gray-600" "⚡");
    ("Other", mkCategoryColor "bg-gray-100" "text-gray-600" "❓") ].

Definition categoryColors : gmap string CategoryColor :=
  list_to_map categoryColors_entries.

(** The own properties of [categoryColors] of the home page. *)
Definition home_categoryColors_entries : list (string * string) :=
  [ ("Web", "bg-cyan-500"); ("Database", "bg-violet-500");
    ("Remote Access", "bg-rose-500"); ("DNS", "bg-blue-500");
    ("Network", "bg-slate-500"); ("Discovery", "bg-orange-500");
    ("File Sharing", "bg-emerald-500"); ("Email", "bg-amber-500");
    ("Streaming", "bg-pink-500"); ("VoIP", "bg-indigo-500");
    ("Messaging", "bg-teal-500"); ("Application", "bg-gray-500");
    ("Ephemeral", "bg-gray-400") ].

Definition home_categoryColors : gmap string string :=
  list_to_map home_categoryColors_entries.

(** ** The home page *)

Record Device := mkDevice {
  dev_id : Z;
  mac : string;
  vendor : option string;
  os_guess : option string
}.

Record Stats := mkStats {
  totalDevices : Z;
  totalCaptures : Z;
  totalDomains : Z;
  totalPackets : Z;
  totalBytes : Z;
  externalDestinations : Z;
  st_protocols : list ProtocolRow;
  st_categories : list CategorySummary;
  topTalkers : list TalkerRow;
  devices : list Device
}.

(** [arr.length]. *)
Definition array_length {A : Type} (arr : list A) : Z := Z.of_nat (length arr).

(** The argument of [setStats] in [fetchData]: [devicesData] is the JSON
    of the devices route, an array of devices or something else
    ([None]); [trafficData] is the JSON body of the traffic route, whose
    fields are arrays in a traffic body and are missing in an error
    body, so that every [Array.isArray] test fails there. *)
Definition fetchData_stats (devicesData : option (list Device))
    (trafficData : JsonBody) (captures : list Capture)
    (selectedCapture : option Capture) : Stats :=
  let traffic :=
    match trafficData with
    | TrafficBody d => Some d
    | ErrorBody _ => None
    end in
  {| totalDevices := from_option array_length 0 devicesData;
     totalCaptures := array_length captures;
     totalDomains := from_option (array_length ∘ dnsDomains) 0 traffic;
     totalPackets := or_zero (from_option packet_count 0 selectedCapture);
     totalBytes :=
       from_option
         (λ d, foldl (λ sum t, sum + bytes_sent t + bytes_received t) 0
                 (talkers d))
         0 traffic;
     externalDestinations :=
       from_option (array_length ∘ destinations) 0 traffic;
     st_protocols := from_option protocols [] traffic;
     st_categories := from_option categories [] traffic;
     topTalkers := from_option (slice0 5 ∘ talkers) [] traffic;
     devices := default [] devicesData |}.

(** [device.os_guess || 'Unknown']: [null] and the empty string give
    ['Unknown']. *)
Definition or_Unknown (s : option string) : string :=
  match s with
  | Some s => if bool_decide (s = EmptyString) then "Unknown" else s
  | None => "Unknown"
  end.

(** The names of the properties that an object literal inherits from
    [Object.prototype]. *)
Definition object_prototype_keys : list string :=
  [ "constructor"; "__defineGetter__"; "__defineSetter__";
    "hasOwnProperty"; "__lookupGetter__"; "__lookupSetter__";
    "isPrototypeOf"; "propertyIsEnumerable"; "toString"; "valueOf";
    "__proto__"; "toLocaleString" ].

(** [osBreakdown] and [vendorBreakdown]: the reduction
    [acc[k] = (acc[k] || 0) + 1] from [{}], for the field [os_guess] or
    [vendor]. The object is the map of its own properties; a read of
    [acc[k]] is a read of an own property as long as [k] is none of
    [object_prototype_keys], which the statements about this function
    assume. *)
Definition breakdown (field : Device → option string)
    (devices : list Device) : gmap string Z :=
  foldl (λ acc device,
           let k := or_Unknown (field device) in
           <[k := or_zero (default 0 (acc !! k)) + 1]> acc)
    ∅ devices.

Definition osBreakdown (stats : Stats) : gmap string Z :=
  breakdown os_guess (devices stats).

Definition vendorBreakdown (stats : Stats) : gmap string Z :=
  breakdown vendor (devices stats).

Definition securityCategories : list string :=
  [ "Remote Access"; "Database"; "File Sharing" ].

(** [stats.categories.filter(c => securityCategories.includes(c.category))
    .flatMap(c => c.ports.map(p => p.service))]. *)
Definition securityServicesDetected (stats : Stats) : list string :=
  filter (λ c, cat_category c ∈ securityCategories) (st_categories stats)
    ≫= (λ c, pe_service <$> cat_ports c).

(** The number on the card of [categoryName] in "Security-Relevant
    Services Detected": [category.ports.length] for
    [stats.categories.find(c => c.category === categoryName)], and no
    number ("None detected") when there is no such category. *)
Definition security_card (stats : Stats) (categoryName : string)
    : option Z :=
  (array_length ∘ cat_ports ∘ snd) <$>
    list_find (λ c, cat_category c = categoryName) (st_categories stats).

(** *** Vocabulary for the properties of [parseInt] *)





(** * Properties *)

(** ** The port table and [categorizePort] *)

Lemma portCategories_keys_NoDup : NoDup (portCategories_entries.*1).
Proof. apply (bool_decide_unpack _). by vm_compute. Qed.

Lemma portCategories_lookup_entries p info :
  portCategories !! p = Some info ↔ (p, info) ∈ portCategories_entries.
Proof.
  unfold portCategories. symmetry.
  apply elem_of_list_to_map, portCategories_keys_NoDup.
Qed.

Lemma portCategories_entries_Forall :
  Forall (λ e, 1 ≤ e.1 ≤ 65535 ∧ category e.2 ∈ table_categories)
    portCategories_entries.
Proof. apply (bool_decide_unpack _). by vm_compute. Qed.

Lemma portCategories_lookup_range p info :
  portCategories !! p = Some info →
  1 ≤ p ≤ 65535 ∧ category info ∈ table_categories.
Proof.
  rewrite portCategories_lookup_entries. intros Hin.
  pose proof portCategories_entries_Forall as HF.
  rewrite Forall_forall in HF. exact (HF _ Hin).
Qed.

Lemma table_categories_all_used :
  Forall (λ c, Exists (λ e, category e.2 = c) portCategories_entries)
    table_categories.
Proof. apply (bool_decide_unpack _). by vm_compute. Qed.

Lemma categorizePort_hit p info :
  portCategories !! p = Some info → categorizePort p = info.
Proof. unfold categorizePort. by intros ->. Qed.

Lemma categorizePort_miss p :
  portCategories !! p = None →
  categorizePort p =
    if bool_decide (1024 ≤ p ≤ 49151) then mkPortInfo "Application" (port_label p)
    else if bool_decide (49152 ≤ p) then mkPortInfo "Ephemeral" (port_label p)
    else mkPortInfo "Other" (port_label p).
Proof.
  unfold categorizePort. intros ->.
  repeat case_bool_decide; simpl; try reflexivity; lia.
Qed.

Lemma categorizePort_category_known p :
  category (categorizePort p) ∈ known_categories.
Proof.
  destruct (portCategories !! p) as [info|] eqn:E.
  - rewrite (categorizePort_hit _ _ E).
    apply elem_of_app. left. by apply (portCategories_lookup_range p).
  - rewrite (categorizePort_miss _ E). apply elem_of_app. right.
    unfold heuristic_categories.
    repeat case_bool_decide; simpl; rewrite !elem_of_cons; auto.
Qed.

Lemma portCategories_negative p : p < 0 → portCategories !! p = None.
Proof.
  intros Hp. destruct (portCategories !! p) as [info|] eqn:E; [|done].
  apply portCategories_lookup_range in E. lia.
Qed.

Lemma portCategories_large p : 65535 < p → portCategories !! p = None.
Proof.
  intros Hp. destruct (portCategories !! p) as [info|] eqn:E; [|done].
  apply portCategories_lookup_range in E. lia.
Qed.

Lemma rule_fires_cases p :
  (rule_fires TableEntry p ↔ is_Some (portCategories !! p)) ∧
  (rule_fires RegisteredRange p ↔
     portCategories !! p = None ∧ 1024 ≤ p ≤ 49151) ∧
  (rule_fires EphemeralRange p ↔ portCategories !! p = None ∧ 49152 ≤ p) ∧
  (rule_fires Remaining p ↔ portCategories !! p = None ∧ p < 1024).
Proof.
  unfold rule_fires; simpl.
  rewrite !Forall_cons, !Forall_nil; cbn.
  rewrite <-!eq_None_not_Some.
  repeat split; intros; destruct_and?; repeat split; auto; lia.
Qed.

Lemma rule_fires_unique p : exists! r, rule_fires r p.
Proof.
  pose proof (rule_fires_cases p) as (H1 & H2 & H3 & H4).
  destruct (portCategories !! p) as [info|] eqn:E.
  - exists TableEntry. split; [apply H1; eauto|].
    intros [] Hr; [done | apply H2 in Hr | apply H3 in Hr | apply H4 in Hr];
      by destruct Hr.
  - assert (Hno : ¬ rule_fires TableEntry p).
    { rewrite H1. by intros [? ?]. }
    destruct (decide (1024 ≤ p ≤ 49151)) as [Hreg|Hreg];
      [|destruct (decide (49152 ≤ p)) as [Heph|Heph]].
    + exists RegisteredRange. split; [by apply H2|].
      intros [] Hr; [done | done | apply H3 in Hr | apply H4 in Hr]; lia.
    + exists EphemeralRange. split; [by apply H3|].
      intros [] Hr; [done | apply H2 in Hr | done | apply H4 in Hr]; lia.
    + exists Remaining. split; [apply H4; split; [done|lia]|].
      intros [] Hr; [done | apply H2 in Hr | apply H3 in Hr | done]; lia.
Qed.

Lemma rule_fires_yields r p : rule_fires r p → rule_yields r p (categorizePort p).
Proof.
  pose proof (rule_fires_cases p) as (H1 & H2 & H3 & H4).
  destruct r; simpl; intros Hr.
  - apply H1 in Hr as [info E]. by rewrite (categorizePort_hit _ _ E).
  - apply H2 in Hr as [E ?]. rewrite (categorizePort_miss _ E).
    by rewrite bool_decide_eq_true_2.
  - apply H3 in Hr as [E ?]. rewrite (categorizePort_miss _ E).
    rewrite bool_decide_eq_false_2 by lia. by rewrite bool_decide_eq_true_2.
  - apply H4 in Hr as [E ?]. rewrite (categorizePort_miss _ E).
    by rewrite !bool_decide_eq_false_2 by lia.
Qed.

(** C2. For every port in [0, 65535], [categorizePort] returns the table
    entry verbatim when the port has one; otherwise 1024..49151 gives
    "Application", 49152 and above gives "Ephemeral" and every remaining
    port gives "Other", each with the label "Port n". The rules are
    tried in that order, exactly one of them fires, the result is the
    one that the firing rule yields, and the category is a table
    category or one of Application, Ephemeral, Other. *)
Theorem categorizePort_classification (p : Z) :
  0 ≤ p ≤ 65535 →
  (∀ info, portCategories !! p = Some info → categorizePort p = info) ∧
  (portCategories !! p = None → 1024 ≤ p ≤ 49151 →
     categorizePort p = mkPortInfo "Application" (port_label p)) ∧
  (portCategories !! p = None → 49152 ≤ p →
     categorizePort p = mkPortInfo "Ephemeral" (port_label p)) ∧
  (portCategories !! p = None → p < 1024 →
     categorizePort p = mkPortInfo "Other" (port_label p)) ∧
  (exists! r, rule_fires r p) ∧
  (∀ r, rule_fires r p → rule_yields r p (categorizePort p)) ∧
  category (categorizePort p) ∈ known_categories.
Proof.
  intros _.
  pose proof (rule_fires_cases p) as (H1 & H2 & H3 & H4).
  split_and!.
  - apply categorizePort_hit.
  - intros E Hr. by apply (rule_fires_yields RegisteredRange), H2.
  - intros E Hr. by apply (rule_fires_yields EphemeralRange), H3.
  - intros E Hr. by apply (rule_fires_yields Remaining), H4.
  - apply rule_fires_unique.
  - intros r. apply rule_fires_yields.
  - apply categorizePort_category_known.
Qed.

(** Scenario B: port 54321 is "Ephemeral" with the label "Port 54321",
    and port 80 is the table entry. *)
Lemma categorizePort_classification_witness :
  0 ≤ 54321 ≤ 65535 ∧
  categorizePort 54321 = mkPortInfo "Ephemeral" "Port 54321" ∧
  categorizePort 80 = mkPortInfo "Web" "HTTP".
Proof.
  split; [lia|]. split.
  - destruct (categorizePort_classification 54321) as (_ & _ & H & _); [lia|].
    apply H; [reflexivity|lia].
  - destruct (categorizePort_classification 80) as (H & _); [lia|].
    apply H. reflexivity.
Defined.

(** C9. [categorizePort] is defined on every integer: a negative port
    is "Other", a port above 65535 is "Ephemeral", each with the label
    "Port n", and whatever the integer the result has a known
    category. *)
Theorem categorizePort_total_on_integers (p : Z) :
  (p < 0 → categorizePort p = mkPortInfo "Other" (port_label p)) ∧
  (65535 < p → categorizePort p = mkPortInfo "Ephemeral" (port_label p)) ∧
  (∃ info, categorizePort p = info ∧ category info ∈ known_categories).
Proof.
  split_and!.
  - intros Hp. rewrite (categorizePort_miss _ (portCategories_negative _ Hp)).
    by rewrite !bool_decide_eq_false_2 by lia.
  - intros Hp. rewrite (categorizePort_miss _ (portCategories_large _ Hp)).
    rewrite bool_decide_eq_false_2 by lia. by rewrite bool_decide_eq_true_2 by lia.
  - eexists. split; [reflexivity|]. apply categorizePort_category_known.
Qed.

Lemma categorizePort_total_on_integers_witness :
  categorizePort (-1) = mkPortInfo "Other" "Port -1" ∧
  categorizePort 70000 = mkPortInfo "Ephemeral" "Port 70000".
Proof.
  split.
  - destruct (categorizePort_total_on_integers (-1)) as (H & _). apply H. lia.
  - destruct (categorizePort_total_on_integers 70000) as (_ & H & _).
    apply H. lia.
Defined.

(** ** [Array.prototype.sort] with a descending count comparator *)

Section SortFacts.
Context {A : Type} (cnt : A → Z).

Abbreviation cmp := (by_count_desc cnt).
Abbreviation count_ge := (count_ge cnt).
Abbreviation with_count v := (λ a : A, cnt a = v).

Lemma sort_insert_Permutation x l : sort_insert cmp x l ≡ₚ x :: l.
Proof.
  induction l as [|y l IH]; simpl; [done|].
  case_bool_decide; [done|]. rewrite IH. apply Permutation_swap.
Qed.

Lemma array_sort_Permutation l : array_sort cmp l ≡ₚ l.
Proof.
  induction l as [|x l IH]; simpl; [done|].
  by rewrite sort_insert_Permutation, IH.
Qed.

Lemma array_sort_length l : length (array_sort cmp l) = length l.
Proof. by rewrite array_sort_Permutation. Qed.

Lemma array_sort_elem_of x l : x ∈ array_sort cmp l ↔ x ∈ l.
Proof. by rewrite array_sort_Permutation. Qed.

Lemma sort_insert_sorted x l :
  StronglySorted count_ge l → StronglySorted count_ge (sort_insert cmp x l).
Proof.
  unfold count_ge, by_count_desc.
  induction l as [|y l IH]; simpl; intros Hl.
  - repeat constructor.
  - apply StronglySorted_cons in Hl as [Hy Hl].
    case_bool_decide as Hc.
    + apply StronglySorted_cons. split; [|by apply StronglySorted_cons].
      constructor; [lia|].
      eapply Forall_impl; [exact Hy|]. simpl. intros z Hz. lia.
    + apply StronglySorted_cons. split; [|by apply IH].
      rewrite sort_insert_Permutation. constructor; [lia|done].
Qed.

Lemma array_sort_sorted l : StronglySorted count_ge (array_sort cmp l).
Proof.
  induction l as [|x l IH]; simpl; [constructor|].
  by apply sort_insert_sorted.
Qed.



(** A list that is already ranked is left as it is. *)
Lemma array_sort_sorted_id l :
  StronglySorted count_ge l → array_sort cmp l = l.
Proof.
  unfold count_ge.
  induction l as [|x l IH]; simpl; [done|].
  rewrite StronglySorted_cons. intros [Hx Hl]. rewrite (IH Hl).
  destruct l as [|y l]; simpl; [done|].
  apply Forall_cons in Hx as [Hxy _].
  unfold by_count_desc. rewrite bool_decide_eq_true_2 by lia. done.
Qed.

Lemma array_sort_idemp l :
  array_sort cmp (array_sort cmp l) = array_sort cmp l.
Proof. apply array_sort_sorted_id, array_sort_sorted. Qed.


Lemma topN_length n l : length (topN cnt n l) = (n `min` length l)%nat.
Proof. unfold topN, slice0. by rewrite length_take, array_sort_length. Qed.



(** The kept items are ranked at least as high as the dropped ones. *)
Lemma topN_dominates n l a b :
  a ∈ topN cnt n l → b ∈ drop n (array_sort cmp l) → cnt b ≤ cnt a.
Proof.
  intros Ha Hb.
  apply (StronglySorted_app_1_elem_of count_ge (topN cnt n l)
           (drop n (array_sort cmp l))); [|done..].
  unfold topN, slice0. rewrite take_drop. apply array_sort_sorted.
Qed.
End SortFacts.





(** ** The JavaScript [Map] operations on a keyed list *)

Section JSMapFacts.
Context {V : Type} (g : string → V).

Abbreviation keyed ks := ((λ c : string, (c, g c)) <$> (ks : list string)).

Lemma map_has_keyed k (ks : list string) : map_has k (keyed ks) = bool_decide (k ∈ ks).
Proof.
  induction ks as [|c ks IH]; csimpl; [done|].
  destruct (decide (c = k)) as [->|Hc].
  - symmetry. apply bool_decide_eq_true_2. left.
  - rewrite IH. apply bool_decide_ext. rewrite elem_of_cons. naive_solver.
Qed.

Lemma map_get_keyed k (ks : list string) :
  map_get k (keyed ks) = if decide (k ∈ ks) then Some (g k) else None.
Proof.
  induction ks as [|c ks IH]; csimpl; [done|].
  destruct (decide (c = k)) as [->|Hc].
  - rewrite decide_True; [done|left].
  - rewrite IH. destruct (decide (k ∈ ks)) as [Hk|Hk].
    + rewrite decide_True; [done|by right].
    + rewrite decide_False; [done|].
      intros [?|?]%elem_of_cons; [by subst|done].
Qed.

Lemma map_set_keyed_new k v (ks : list string) :
  k ∉ ks → map_set k v (keyed ks) = keyed ks ++ [(k, v)].
Proof.
  induction ks as [|c ks IH]; csimpl; intros Hk; [done|].
  apply not_elem_of_cons in Hk as [Hkc Hk].
  rewrite decide_False by done. by rewrite IH.
Qed.

Lemma map_set_keyed_old k v (ks : list string) :
  NoDup ks → k ∈ ks →
  map_set k v (keyed ks)
  = (λ c, (c, if decide (c = k) then v else g c)) <$> ks.
Proof.
  induction ks as [|c ks IH]; csimpl; intros Hnd Hk; [by inv Hk|].
  apply NoDup_cons in Hnd as [Hc Hnd].
  case_decide as Hck.
  - subst c. f_equal. apply list_fmap_ext. intros i c Hi.
    rewrite decide_False; [done|].
    intros ->. apply Hc. by eapply list_elem_of_lookup_2.
  - f_equal. apply IH; [done|].
    apply elem_of_cons in Hk as [?|?]; [by subst|done].
Qed.
End JSMapFacts.

Lemma map_get_snoc_new {V} (k : string) (v : V) (m : JSMap V) :
  map_has k m = false → map_get k (m ++ [(k, v)]) = Some v.
Proof.
  induction m as [|[k' v'] m IH]; simpl.
  - by rewrite decide_True.
  - case_decide; [done|]. apply IH.
Qed.

Lemma map_set_snoc_new {V} (k : string) (v v' : V) (m : JSMap V) :
  map_has k m = false → map_set k v' (m ++ [(k, v)]) = m ++ [(k, v')].
Proof.
  induction m as [|[k' w] m IH]; simpl.
  - by rewrite decide_True.
  - case_decide; [done|]. intros Hm. by rewrite IH.
Qed.

(** ** The category builder *)

Lemma sum_Z_app l k : sum_Z (l ++ k) = sum_Z l + sum_Z k.
Proof. unfold sum_Z. induction l as [|x l IH]; simpl; lia. Qed.

Global Instance sum_Z_Permutation : Proper ((≡ₚ) ==> (=)) sum_Z.
Proof.
  unfold sum_Z. induction 1; simpl; lia.
Qed.

Lemma first_seen_snoc L row :
  first_seen (L ++ [row])
  = if decide (category_of row ∈ first_seen L) then first_seen L
    else first_seen L ++ [category_of row].
Proof. unfold first_seen. by rewrite foldl_snoc. Qed.

Lemma first_seen_NoDup L : NoDup (first_seen L).
Proof.
  induction L as [|row L IH] using rev_ind; [constructor|].
  rewrite first_seen_snoc. case_decide as Hc; [done|].
  apply NoDup_app. split_and!; [done| |apply NoDup_singleton].
  intros c Hin ->%list_elem_of_singleton. done.
Qed.

Lemma first_seen_elem_of L c :
  c ∈ first_seen L ↔ ∃ row, row ∈ L ∧ category_of row = c.
Proof.
  induction L as [|row L IH] using rev_ind.
  - split; [by intros ?%elem_of_nil|intros (? & ?%elem_of_nil & _); done].
  - rewrite first_seen_snoc.
    setoid_rewrite elem_of_app. setoid_rewrite list_elem_of_singleton.
    case_decide as Hc.
    + rewrite IH. split; [naive_solver|].
      intros (r & [Hr| ->] & Hcat); [eauto|].
      subst c. by apply IH.
    + rewrite elem_of_app, list_elem_of_singleton, IH. naive_solver.
Qed.

Lemma rows_in_snoc c L row :
  rows_in c (L ++ [row])
  = rows_in c L ++ (if decide (category_of row = c) then [row] else []).
Proof.
  unfold rows_in. rewrite filter_app, (filter_cons _ row), filter_nil.
  by case_decide.
Qed.

Lemma summary_of_snoc_same L row :
  summary_of (L ++ [row]) (category_of row)
  = {| cat_category := cat_category (summary_of L (category_of row));
       cat_count := cat_count (summary_of L (category_of row)) + count row;
       cat_ports := cat_ports (summary_of L (category_of row)) ++ [port_entry row] |}.
Proof.
  unfold summary_of; simpl. rewrite rows_in_snoc, decide_True by done.
  rewrite !fmap_app, sum_Z_app. simpl. f_equal. lia.
Qed.

Lemma summary_of_snoc_other L row c :
  c ≠ category_of row → summary_of (L ++ [row]) c = summary_of L c.
Proof.
  intros Hc. unfold summary_of.
  rewrite rows_in_snoc, decide_False by done. by rewrite app_nil_r.
Qed.

Lemma summary_of_fresh L c : c ∉ first_seen L → rows_in c L = [].
Proof.
  intros Hc. unfold rows_in.
  destruct (filter _ L) as [|row rows] eqn:E; [done|].
  assert (Hin : row ∈ filter (λ row, category_of row = c) L)
    by (rewrite E; left).
  apply list_elem_of_filter in Hin as [Hcat Hin].
  destruct Hc. apply first_seen_elem_of. eauto.
Qed.

(** The map after the loop: one entry for each category met, in the
    order of the first meeting, holding the total and the contributions
    of all rows of the category in input order. *)
Lemma buildCategoryMap_spec L :
  buildCategoryMap L = (λ c, (c, summary_of L c)) <$> first_seen L.
Proof.
  induction L as [|row L IH] using rev_ind; [done|].
  unfold buildCategoryMap in *. rewrite foldl_snoc, IH. clear IH.
  unfold categoryMap_step. fold (category_of row).
  set (c := category_of row).
  rewrite map_has_keyed, first_seen_snoc. fold c.
  pose proof (first_seen_NoDup L) as Hnd.
  destruct (decide (c ∈ first_seen L)) as [Hin|Hin].
  - rewrite bool_decide_eq_true_2 by done. simpl.
    rewrite map_get_keyed, decide_True by done.
    rewrite map_set_keyed_old by done.
    apply list_fmap_ext. intros i c' Hi. f_equal.
    case_decide as Hc'.
    + subst c'. unfold c. by rewrite summary_of_snoc_same.
    + by rewrite summary_of_snoc_other.
  - rewrite bool_decide_eq_false_2 by done. simpl.
    rewrite map_set_keyed_new by done.
    assert (Hhas : map_has c ((λ c0, (c0, summary_of L c0)) <$> first_seen L)
                   = false).
    { rewrite map_has_keyed. by apply bool_decide_eq_false_2. }
    rewrite (map_get_snoc_new _ _ _ Hhas). cbn [cat_category cat_count cat_ports].
    rewrite (map_set_snoc_new _ _ _ _ Hhas).
    rewrite fmap_app. csimpl. f_equal.
    + apply list_fmap_ext. intros i c' Hi. f_equal.
      symmetry. apply summary_of_snoc_other. intros ->.
      apply Hin. by eapply list_elem_of_lookup_2.
    + unfold c. rewrite summary_of_snoc_same.
      unfold summary_of; simpl. fold c.
      by rewrite (summary_of_fresh L c Hin).
Qed.

(** The non-null assertion of [categoryMap.get(category)!] holds: in
    [categoryMap_step] the key is present when it is read. *)
Lemma categoryMap_step_get {V} (k : string) (v : V) (m : JSMap V) :
  is_Some (map_get k (if negb (map_has k m) then map_set k v m else m)).
Proof.
  induction m as [|[k' v'] m IH]; simpl.
  - rewrite decide_True by done. eauto.
  - case_decide as Hk; simpl.
    + rewrite decide_True by done. eauto.
    + destruct (map_has k m) eqn:Hhas; simpl in *;
        by rewrite decide_False by done.
Qed.

Lemma map_values_keyed {V} (g : string → V) (ks : list string) :
  map_values ((λ c, (c, g c)) <$> ks) = g <$> ks.
Proof.
  unfold map_values. rewrite <-list_fmap_compose. by apply list_fmap_ext.
Qed.

Lemma buildCategories_spec L :
  buildCategories L
  = top5_ports <$>
      array_sort (by_count_desc cat_count) (summary_of L <$> first_seen L).
Proof.
  unfold buildCategories. by rewrite buildCategoryMap_spec, map_values_keyed.
Qed.

Lemma buildCategories_elem_of L C :
  C ∈ buildCategories L ↔
  ∃ c, c ∈ first_seen L ∧ C = top5_ports (summary_of L c).
Proof.
  rewrite buildCategories_spec, list_elem_of_fmap.
  setoid_rewrite array_sort_elem_of. setoid_rewrite list_elem_of_fmap.
  split.
  - intros (C0 & -> & c & -> & Hc). eauto.
  - intros (c & Hc & ->). eauto.
Qed.







Lemma buildCategories_category_NoDup L :
  NoDup (cat_category <$> buildCategories L).
Proof.
  rewrite buildCategories_spec, <-list_fmap_compose.
  rewrite array_sort_Permutation, <-list_fmap_compose.
  rewrite (list_fmap_ext _ id (first_seen L)) by done.
  rewrite list_fmap_id. apply first_seen_NoDup.
Qed.

(** Scenario A of the specification. *)
Example buildCategories_scenario_A :
  buildCategories [mkPortRow 80 "TCP" 100; mkPortRow 443 "TCP" 50;
                   mkPortRow 22 "TCP" 30]
  = [ mkCategorySummary "Web" 150
        [mkPortEntry 80 "HTTP" 100; mkPortEntry 443 "HTTPS" 50];
      mkCategorySummary "Remote Access" 30 [mkPortEntry 22 "SSH" 30] ].
Proof. by vm_compute. Qed.

(** Two categories of equal count stay in the order in which the loop
    met them, here "Other" before "Web". *)
Example buildCategories_tie :
  cat_category <$>
    buildCategories [mkPortRow 7 "TCP" 10; mkPortRow 80 "TCP" 10;
                     mkPortRow 53 "UDP" 11]
  = ["DNS"; "Other"; "Web"].
Proof. by vm_compute. Qed.





Lemma top5_ports_spec L c :
  top5_ports (summary_of L c)
  = {| cat_category := c;
       cat_count := sum_Z (count <$> rows_in c L);
       cat_ports := topN pe_count 5 (port_entry <$> rows_in c L) |}.
Proof. reflexivity. Qed.




(** ** The outcomes of [GET] *)

Ltac unfold_GET :=
  unfold GET, GET_try, mbind, Route_bind, mret, Route_ret, call_getDB,
    call_getAll.

Lemma GET_no_db {DB} (getAll : GetAll DB) captureId :
  GET None getAll captureId = (error_response, []).
Proof. reflexivity. Qed.

Lemma GET_success {DB} (getAll : GetAll DB) captureId db
    protocols ports talkers dnsDomains destinations :
  read getAll db captureId tbl_protocol_counts = Some protocols →
  read getAll db captureId tbl_top_ports = Some ports →
  read getAll db captureId tbl_top_talkers = Some talkers →
  read getAll db captureId tbl_dns_domains = Some dnsDomains →
  read getAll db captureId tbl_destinations = Some destinations →
  GET (Some db) getAll captureId
  = (mkResponse 200
       (TrafficBody (mkTrafficData protocols ports talkers dnsDomains
                       destinations (buildCategories ports))),
     reads_of captureId).
Proof.
  unfold query_for, limit_of. intros H1 H2 H3 H4 H5.
  unfold_GET. cbn beta iota. rewrite H1, H2, H3, H4, H5. reflexivity.
Qed.

Lemma GET_read_fails {DB} (getAll : GetAll DB) captureId db t :
  read getAll db captureId t = None →
  (GET (Some db) getAll captureId).1 = error_response.
Proof.
  unfold query_for. intros Ht. unfold_GET. cbn beta iota.
  destruct (getAll db tbl_protocol_counts _ _) eqn:H1; [|done].
  destruct (getAll db tbl_top_ports _ _) eqn:H2; [|done].
  destruct (getAll db tbl_top_talkers _ _) eqn:H3; [|done].
  destruct (getAll db tbl_dns_domains _ _) eqn:H4; [|done].
  destruct (getAll db tbl_destinations _ _) eqn:H5; [|done].
  destruct t; simpl in Ht; congruence.
Qed.

(** The two outcomes of a request. *)
Lemma GET_cases {DB} (getDB : option DB) (getAll : GetAll DB) captureId :
  (GET getDB getAll captureId).1 = error_response ∧
    (getDB = None ∨
     ∃ db t, getDB = Some db ∧ read getAll db captureId t = None)
  ∨
  ∃ db protocols ports talkers dnsDomains destinations,
    getDB = Some db ∧
    read getAll db captureId tbl_protocol_counts = Some protocols ∧
    read getAll db captureId tbl_top_ports = Some ports ∧
    read getAll db captureId tbl_top_talkers = Some talkers ∧
    read getAll db captureId tbl_dns_domains = Some dnsDomains ∧
    read getAll db captureId tbl_destinations = Some destinations ∧
    GET getDB getAll captureId
    = (mkResponse 200
         (TrafficBody (mkTrafficData protocols ports talkers dnsDomains
                         destinations (buildCategories ports))),
       reads_of captureId).
Proof.
  destruct getDB as [db|]; [|left; split; [done|by left]].
  destruct (read getAll db captureId tbl_protocol_counts)
    as [protocols|] eqn:H1;
    [|left; split; [exact (GET_read_fails _ _ _ _ H1)|right; eauto]].
  destruct (read getAll db captureId tbl_top_ports) as [ports|] eqn:H2;
    [|left; split; [exact (GET_read_fails _ _ _ _ H2)|right; eauto]].
  destruct (read getAll db captureId tbl_top_talkers) as [talkers|] eqn:H3;
    [|left; split; [exact (GET_read_fails _ _ _ _ H3)|right; eauto]].
  destruct (read getAll db captureId tbl_dns_domains) as [dnsDomains|] eqn:H4;
    [|left; split; [exact (GET_read_fails _ _ _ _ H4)|right; eauto]].
  destruct (read getAll db captureId tbl_destinations)
    as [destinations|] eqn:H5;
    [|left; split; [exact (GET_read_fails _ _ _ _ H5)|right; eauto]].
  right. exists db, protocols, ports, talkers, dnsDomains, destinations.
  split_and!; try done. by apply GET_success.
Qed.


(** The reads made are an initial part of the five reads. *)
Lemma GET_log_prefix {DB} (getDB : option DB) (getAll : GetAll DB) captureId :
  (GET getDB getAll captureId).2 `prefix_of` reads_of captureId.
Proof.
  unfold_GET. unfold reads_of, all_tables, query_for, limit_of.
  destruct getDB as [db|]; cbn beta iota; [|by apply prefix_nil].
  repeat match goal with
  | |- context [getAll ?d ?t ?q ?ps] =>
      destruct (getAll d t q ps); cbn beta iota
  end; csimpl;
    repeat (apply prefix_cons_alt; [done|]);
    first [done | apply prefix_nil].
Qed.

(** ** The model of the store *)

Lemma sql_getAll_honours_limit : honours_limit sql_getAll.
Proof.
  intros db t q params rows n [= <-] Hn. unfold sql_limit. rewrite Hn.
  rewrite length_take. lia.
Qed.

Lemma sql_getAll_failing_on_honours_limit bad :
  honours_limit (sql_getAll_failing_on bad).
Proof.
  intros db t q params rows n Hrows Hn. unfold sql_getAll_failing_on in Hrows.
  case_decide; [done|]. by eapply sql_getAll_honours_limit.
Qed.



(** Scenario C of the specification, on the model of the store. *)
Example sql_getAll_scenario_C :
  ip <$> default [] (sql_getAll example_db tbl_top_talkers
                       (mkQuery true (Some 20%nat)) [Num 1])
  = ["10.0.0.5"; "10.0.0.9"].
Proof. by vm_compute. Qed.

(** ** The requests *)

(** C6. There are no partial results: when the database cannot be
    opened or any one of the five reads fails, the response is the
    single error response; a response that is not the error response
    carries the rows of all five reads and the categories built from the
    ports, so there are only these two kinds of response, and they
    differ. *)
Theorem GET_no_partial_results {DB} (getDB : option DB) (getAll : GetAll DB)
    (captureId : option string) :
  let resp := (GET getDB getAll captureId).1 in
  ((getDB = None ∨
    ∃ db t, getDB = Some db ∧ read getAll db captureId t = None) →
   resp = error_response) ∧
  (resp ≠ error_response →
   ∃ db protocols ports talkers dnsDomains destinations,
     getDB = Some db ∧
     read getAll db captureId tbl_protocol_counts = Some protocols ∧
     read getAll db captureId tbl_top_ports = Some ports ∧
     read getAll db captureId tbl_top_talkers = Some talkers ∧
     read getAll db captureId tbl_dns_domains = Some dnsDomains ∧
     read getAll db captureId tbl_destinations = Some destinations ∧
     resp = mkResponse 200
              (TrafficBody (mkTrafficData protocols ports talkers dnsDomains
                              destinations (buildCategories ports)))) ∧
  (∀ data, mkResponse 200 (TrafficBody data) ≠ error_response).
Proof.
  intros resp. subst resp. split_and!.
  - intros [->|(db & t & -> & Ht)]; [done|].
    by apply (GET_read_fails getAll captureId db t).
  - intros Hresp.
    destruct (GET_cases getDB getAll captureId)
      as [[Herr _]|(db & p & po & ta & dn & de & ? & ? & ? & ? & ? & ? & HG)];
      [done|].
    exists db, p, po, ta, dn, de. rewrite HG. by split_and!.
  - intros data. discriminate.
Qed.

(** The read of [dns_domains] fails, the other four would succeed: the
    response is the error response. *)
Lemma GET_no_partial_results_witness :
  read (sql_getAll_failing_on tbl_dns_domains) example_db (Some "1")
    tbl_dns_domains = None ∧
  (GET (Some example_db) (sql_getAll_failing_on tbl_dns_domains)
     (Some "1")).1 = error_response.
Proof.
  assert (Hfail : read (sql_getAll_failing_on tbl_dns_domains) example_db
                    (Some "1") tbl_dns_domains = None) by reflexivity.
  split; [exact Hfail|].
  destruct (GET_no_partial_results (Some example_db)
              (sql_getAll_failing_on tbl_dns_domains) (Some "1")) as (H & _).
  apply H. right. exists example_db, tbl_dns_domains. by split.
Defined.

(** C7. Over a store that honours the [LIMIT] of a query, a successful
    response has at most 20 ports, 20 talkers, 50 DNS domains and 20
    destinations, every category has at most 5 ports, and the response
    object has exactly the six fields protocols, ports, talkers,
    dnsDomains, destinations, categories. *)
Theorem GET_truncation_bounds {DB} (getDB : option DB) (getAll : GetAll DB)
    (captureId : option string) (resp : Response) (data : TrafficData) :
  honours_limit getAll →
  (GET getDB getAll captureId).1 = resp →
  body resp = TrafficBody data →
  (length (ports data) ≤ 20)%nat ∧
  (length (talkers data) ≤ 20)%nat ∧
  (length (dnsDomains data) ≤ 50)%nat ∧
  (length (destinations data) ≤ 20)%nat ∧
  Forall (λ C, (length (cat_ports C) ≤ 5)%nat) (categories data) ∧
  top_level_fields (body resp)
  = [ "protocols"; "ports"; "talkers"; "dnsDomains"; "destinations";
      "categories" ].
Proof.
  intros Hlimit <- Hbody.
  destruct (GET_cases getDB getAll captureId)
    as [[Herr _]|(db & p & po & ta & dn & de & ? & ? & H2 & H3 & H4 & H5 & HG)].
  { by rewrite Herr in Hbody. }
  rewrite HG in Hbody |- *. simpl in Hbody. injection Hbody as <-.
  cbn [ports talkers dnsDomains destinations categories fst body
       top_level_fields].
  split_and!.
  - by apply (Hlimit _ _ _ _ _ _ H2).
  - by apply (Hlimit _ _ _ _ _ _ H3).
  - by apply (Hlimit _ _ _ _ _ _ H4).
  - by apply (Hlimit _ _ _ _ _ _ H5).
  - apply Forall_forall. intros C (c & _ & ->)%buildCategories_elem_of.
    rewrite top5_ports_spec. cbn [cat_ports]. rewrite topN_length. lia.
  - reflexivity.
Qed.

Lemma GET_truncation_bounds_witness :
  let resp := (GET (Some example_db) sql_getAll None).1 in
  ∃ data,
    honours_limit sql_getAll ∧
    body resp = TrafficBody data ∧
    (length (ports data) ≤ 20)%nat ∧
    Forall (λ C, (length (cat_ports C) ≤ 5)%nat) (categories data).
Proof.
  intros resp.
  destruct (GET (Some example_db) sql_getAll None) as [r log] eqn:HG.
  vm_compute in HG. injection HG as <- _.
  eexists. split; [exact sql_getAll_honours_limit|].
  split; [reflexivity|].
  destruct (GET_truncation_bounds (Some example_db) sql_getAll None resp _
              sql_getAll_honours_limit eq_refl eq_refl)
    as (H1 & _ & _ & _ & H5 & _).
  split; [exact H1|exact H5].
Defined.



Lemma scope_of_nonempty s :
  s ≠ EmptyString →
  truthy (Some s) = true ∧ scope_params (Some s) = [parseInt s].
Proof.
  intros Hs. unfold scope_params, truthy.
  by rewrite bool_decide_eq_false_2.
Qed.

(** The request [?captureId=abc] on the example database: the handler
    does not reject it. It reads all five tables with the parameter
    [NaN] and answers 200 with empty lists, although the database has
    rows. *)
Lemma GET_invalid_scope_not_rejected :
  parseInt "abc" = NaN ∧
  GET (Some example_db) sql_getAll (Some "abc")
  = (mkResponse 200 (TrafficBody (mkTrafficData [] [] [] [] [] [])),
     [ mkAccess tbl_protocol_counts (mkQuery true None) [NaN];
       mkAccess tbl_top_ports (mkQuery true (Some 20%nat)) [NaN];
       mkAccess tbl_top_talkers (mkQuery true (Some 20%nat)) [NaN];
       mkAccess tbl_dns_domains (mkQuery true (Some 50%nat)) [NaN];
       mkAccess tbl_destinations (mkQuery true (Some 20%nat)) [NaN] ]) ∧
  (GET (Some example_db) sql_getAll (Some "abc")).1 ≠ error_response ∧
  example_db tbl_top_ports ≠ [].
Proof. split_and!; [by vm_compute..|discriminate|discriminate]. Qed.

(** C1, as the code has it. A capture identifier that is supplied and
    not empty is not validated: every read that the request makes
    carries the capture filter with [parseInt(captureId)] as its
    parameter, whatever that is, and when the database opens and the
    five reads succeed the response is the normal 200 response after
    exactly the five reads. An empty identifier is treated as absent. *)
Theorem GET_scope_not_validated {DB} (getDB : option DB) (getAll : GetAll DB)
    (s : string) :
  s ≠ EmptyString →
  let run := GET getDB getAll (Some s) in
  Forall (λ a, q_where (acc_query a) = true ∧ acc_params a = [parseInt s])
    run.2 ∧
  (∀ db, getDB = Some db →
     (∀ t, is_Some (getAll db t (mkQuery true (limit_of t)) [parseInt s])) →
     status run.1 = 200 ∧ acc_table <$> run.2 = all_tables) ∧
  GET getDB getAll (Some EmptyString) = GET getDB getAll None.
Proof.
  intros Hs run. subst run.
  destruct (scope_of_nonempty s Hs) as [Htruthy Hparams].
  split_and!.
  - destruct (GET_log_prefix getDB getAll (Some s)) as [k Hk].
    assert (HF : Forall (λ a, q_where (acc_query a) = true ∧
                              acc_params a = [parseInt s])
                   (reads_of (Some s))).
    { unfold reads_of, query_for. rewrite Htruthy, Hparams.
      by repeat constructor. }
    rewrite Hk in HF. by apply Forall_app in HF as [HF _].
  - intros db -> Hreads.
    assert (Hread : ∀ t, is_Some (read getAll db (Some s) t)).
    { intros t. unfold query_for. rewrite Htruthy, Hparams. apply Hreads. }
    destruct (Hread tbl_protocol_counts) as [p H1].
    destruct (Hread tbl_top_ports) as [po H2].
    destruct (Hread tbl_top_talkers) as [ta H3].
    destruct (Hread tbl_dns_domains) as [dn H4].
    destruct (Hread tbl_destinations) as [de H5].
    by rewrite (GET_success getAll (Some s) db p po ta dn de H1 H2 H3 H4 H5).
  - reflexivity.
Qed.

Lemma GET_scope_not_validated_witness :
  "abc" ≠ EmptyString ∧
  (∀ t, is_Some (sql_getAll example_db t (mkQuery true (limit_of t))
                   [parseInt "abc"])) ∧
  status (GET (Some example_db) sql_getAll (Some "abc")).1 = 200 ∧
  acc_table <$> (GET (Some example_db) sql_getAll (Some "abc")).2
  = all_tables.
Proof.
  assert (Hs : "abc" ≠ EmptyString) by discriminate.
  assert (Hreads : ∀ t, is_Some (sql_getAll example_db t
                                   (mkQuery true (limit_of t))
                                   [parseInt "abc"]))
    by (intros t; eexists; reflexivity).
  split; [exact Hs|]. split; [exact Hreads|].
  destruct (GET_scope_not_validated (Some example_db) sql_getAll "abc" Hs)
    as (_ & H & _).
  exact (H example_db eq_refl Hreads).
Defined.

(** * Further properties *)

(** ** [parseInt] on the rendering of a number *)





















(** ** The reads of a request *)

(** X5. A request reads the tables in one fixed order and stops at the
    first read that fails: the reads made are an initial part of the
    five reads; none is made when the database does not open; a 200
    response has made all five; every read before the last one made has
    succeeded, and when the response is the error response of an open
    database the last read made is the one that failed. *)
Theorem GET_stops_at_first_failure {DB} (getDB : option DB)
    (getAll : GetAll DB) (captureId : option string) :
  let resp := (GET getDB getAll captureId).1 in
  let log := (GET getDB getAll captureId).2 in
  log `prefix_of` reads_of captureId ∧
  (getDB = None → log = []) ∧
  (status resp = 200 → log = reads_of captureId) ∧
  (∀ db, getDB = Some db →
     (∀ i a, log !! i = Some a → (S i < length log)%nat →
        is_Some (getAll db (acc_table a) (acc_query a) (acc_params a))) ∧
     (resp = error_response →
        ∃ a, last log = Some a ∧
             getAll db (acc_table a) (acc_query a) (acc_params a) = None)).
Proof.
  intros resp log. subst resp log. split; [apply GET_log_prefix|].
  split; [by intros ->|].
  unfold_GET. unfold reads_of, all_tables, query_for, limit_of.
  destruct getDB as [db|]; cbn beta iota; [|by split].
  destruct (getAll db tbl_protocol_counts _ _) eqn:H1; cbn beta iota.
  2: { split; [done|]. intros ? [= <-]. split.
       - intros [|i] a Hi Hlt; simpl in *; lia.
       - intros _. eexists. split; [done|]. exact H1. }
  destruct (getAll db tbl_top_ports _ _) eqn:H2; cbn beta iota.
  2: { split; [done|]. intros ? [= <-]. split.
       - intros [|[|i]] a Hi Hlt; simplify_eq/=; try lia. by rewrite H1.
       - intros _. eexists. split; [done|]. exact H2. }
  destruct (getAll db tbl_top_talkers _ _) eqn:H3; cbn beta iota.
  2: { split; [done|]. intros ? [= <-]. split.
       - intros [|[|[|i]]] a Hi Hlt; simplify_eq/=; try lia;
           by rewrite ?H1, ?H2.
       - intros _. eexists. split; [done|]. exact H3. }
  destruct (getAll db tbl_dns_domains _ _) eqn:H4; cbn beta iota.
  2: { split; [done|]. intros ? [= <-]. split.
       - intros [|[|[|[|i]]]] a Hi Hlt; simplify_eq/=; try lia;
           by rewrite ?H1, ?H2, ?H3.
       - intros _. eexists. split; [done|]. exact H4. }
  destruct (getAll db tbl_destinations _ _) eqn:H5; cbn beta iota.
  2: { split; [done|]. intros ? [= <-]. split.
       - intros [|[|[|[|[|i]]]]] a Hi Hlt; simplify_eq/=; try lia;
           by rewrite ?H1, ?H2, ?H3, ?H4.
       - intros _. eexists. split; [done|]. exact H5. }
  split; [done|]. intros ? [= <-]. split; [|done].
  intros [|[|[|[|[|i]]]]] a Hi Hlt; simplify_eq/=; try lia;
    by rewrite ?H1, ?H2, ?H3, ?H4.
Qed.

(** The read of [top_talkers] fails: three reads are made and the third
    is the one that failed. *)
Lemma GET_stops_at_first_failure_witness :
  (GET (Some example_db) (sql_getAll_failing_on tbl_top_talkers) None).1
  = error_response ∧
  ∃ a, last (GET (Some example_db) (sql_getAll_failing_on tbl_top_talkers)
               None).2 = Some a ∧
       acc_table a = tbl_top_talkers ∧
       sql_getAll_failing_on tbl_top_talkers example_db (acc_table a)
         (acc_query a) (acc_params a) = None.
Proof.
  assert (Herr : (GET (Some example_db)
                    (sql_getAll_failing_on tbl_top_talkers) None).1
                 = error_response) by reflexivity.
  split; [exact Herr|].
  destruct (GET_stops_at_first_failure (Some example_db)
              (sql_getAll_failing_on tbl_top_talkers) None)
    as (_ & _ & _ & H).
  destruct (H example_db eq_refl) as [_ Hlast].
  destruct (Hlast Herr) as (a & Ha & Hfail).
  exists a. split; [exact Ha|]. split; [|exact Hfail].
  vm_compute in Ha. by injection Ha as <-.
Defined.

(** ** More about the category builder *)

Lemma first_seen_length L : (length (first_seen L) ≤ length L)%nat.
Proof.
  induction L as [|row L IH] using rev_ind; [done|].
  rewrite first_seen_snoc, length_app. simpl.
  case_decide; [lia|]. rewrite length_app. simpl. lia.
Qed.

Lemma first_seen_known L c : c ∈ first_seen L → c ∈ known_categories.
Proof.
  intros (row & _ & <-)%first_seen_elem_of.
  apply categorizePort_category_known.
Qed.

Lemma buildCategories_length L :
  length (buildCategories L) = length (first_seen L).
Proof.
  by rewrite buildCategories_spec, length_fmap, array_sort_length, length_fmap.
Qed.

Lemma rows_in_nonempty L c : c ∈ first_seen L → rows_in c L ≠ [].
Proof.
  intros (row & Hrow & Hc)%first_seen_elem_of Hnil.
  assert (Hin : row ∈ rows_in c L) by by apply list_elem_of_filter.
  rewrite Hnil in Hin. by apply elem_of_nil in Hin.
Qed.




(** X6. The category builder returns at most one summary for each row
    and at most 14 summaries whatever the input, and each summary names
    one of the 14 known categories. *)
Theorem buildCategories_size (L : list PortRow) :
  (length (buildCategories L) ≤ length L)%nat ∧
  (length (buildCategories L) ≤ 14)%nat ∧
  Forall (λ C, cat_category C ∈ known_categories) (buildCategories L).
Proof.
  rewrite buildCategories_length. split_and!.
  - apply first_seen_length.
  - change 14%nat with (length known_categories).
    apply submseteq_length, NoDup_submseteq; [apply first_seen_NoDup|].
    intros c. apply first_seen_known.
  - apply Forall_forall. intros C (c & Hc & ->)%buildCategories_elem_of.
    by apply (first_seen_known L).
Qed.

(** X7. No category is returned without ports: the ports list of every
    summary is not empty, and each entry in it comes from a row of the
    input whose port [categorizePort] puts into that category, with the
    service label of that port and the count of that row. *)
Theorem category_ports_belong (L : list PortRow) (C : CategorySummary) :
  C ∈ buildCategories L →
  cat_ports C ≠ [] ∧
  ∀ e, e ∈ cat_ports C →
    ∃ row, row ∈ L ∧ e = port_entry row ∧
      category (categorizePort (pe_port e)) = cat_category C ∧
      pe_service e = service (categorizePort (pe_port e)) ∧
      pe_count e = count row.
Proof.
  intros (c & Hc & ->)%buildCategories_elem_of.
  rewrite top5_ports_spec. cbn [cat_ports cat_category]. split.
  - intros Hnil. apply (f_equal length) in Hnil.
    rewrite topN_length, length_fmap in Hnil.
    pose proof (rows_in_nonempty L c Hc) as Hne.
    destruct (rows_in c L); simpl in *; [done|lia].
  - intros e He. unfold topN, slice0 in He.
    apply subseteq_take, array_sort_elem_of, list_elem_of_fmap in He
      as (row & -> & [Hcat Hrow]%list_elem_of_filter).
    exists row. by split_and!.
Qed.

(** A row of port 22 puts the SSH entry under "Remote Access". *)
Lemma category_ports_belong_witness :
  let L := [mkPortRow 80 "TCP" 100; mkPortRow 22 "TCP" 30] in
  let C := mkCategorySummary "Remote Access" 30 [mkPortEntry 22 "SSH" 30] in
  C ∈ buildCategories L ∧ cat_ports C ≠ [].
Proof.
  intros L C.
  assert (HC : C ∈ buildCategories L) by (vm_compute; right; left).
  split; [exact HC|].
  destruct (category_ports_belong L C HC) as [H _]. exact H.
Defined.








(** ** The ranking as a selection *)

(** X10. The ranking keeps the largest counts: it returns
    [min n (length items)] items, what it returns and what it leaves out
    are together the input rearranged, no item left out has a larger
    count than an item kept, and with [n] at least the length of the
    input nothing is left out. *)
Theorem topN_selects_largest {A : Type} (cnt : A → Z) (n : nat)
    (items : list A) :
  let left_out := drop n (array_sort (by_count_desc cnt) items) in
  length (topN cnt n items) = (n `min` length items)%nat ∧
  topN cnt n items ++ left_out ≡ₚ items ∧
  (∀ a b, a ∈ topN cnt n items → b ∈ left_out → cnt b ≤ cnt a) ∧
  ((length items ≤ n)%nat → left_out = [] ∧ topN cnt n items ≡ₚ items).
Proof.
  intros left_out. subst left_out. split_and!.
  - apply topN_length.
  - unfold topN, slice0. by rewrite take_drop, array_sort_Permutation.
  - intros a b. apply topN_dominates.
  - intros Hn. unfold topN, slice0.
    rewrite drop_ge, take_ge by (by rewrite array_sort_length).
    split; [done|apply array_sort_Permutation].
Qed.

Lemma topN_selects_largest_witness :
  let items := [("a", 1); ("b", 3); ("c", 1); ("d", 3); ("e", 2)] in
  (length items ≤ 7)%nat ∧ topN snd 7 items ≡ₚ items.
Proof.
  intros items.
  assert (Hn : (length items ≤ 7)%nat) by (simpl; lia).
  split; [exact Hn|].
  destruct (topN_selects_largest snd 7 items) as (_ & _ & _ & H).
  destruct (H Hn) as [_ Hp]. exact Hp.
Defined.

(** ** Service labels *)

Lemma categorizePort_miss_service p :
  portCategories !! p = None → service (categorizePort p) = port_label p.
Proof.
  intros E. rewrite (categorizePort_miss _ E).
  by repeat case_bool_decide.
Qed.

Lemma table_services_not_port_labels :
  Forall (λ e, ∀ p, port_label p ≠ service e.2) portCategories_entries.
Proof.
  unfold portCategories_entries, port_label.
  repeat (apply Forall_cons_2;
    [intros p H; cbv [String.append] in H; discriminate H|]).
  apply Forall_nil_2.
Qed.

Lemma port_label_inj p q : port_label p = port_label q → p = q.
Proof.
  unfold port_label. intros H. change ("Port " +:+ pretty p)
    with (String "P" (String "o" (String "r" (String "t" (String " "
            (pretty p)))))) in H.
  change ("Port " +:+ pretty q)
    with (String "P" (String "o" (String "r" (String "t" (String " "
            (pretty q)))))) in H.
  injection H as H. by apply (inj pretty).
Qed.

(** X11. The label of a port that is not in the table names that port
    and no other: no other port, listed or not, gets the same service
    label. *)
Theorem unlisted_label_identifies_port (p q : Z) :
  portCategories !! p = None →
  service (categorizePort p) = service (categorizePort q) →
  p = q.
Proof.
  intros Ep. rewrite (categorizePort_miss_service p Ep).
  destruct (portCategories !! q) as [info|] eqn:Eq.
  - rewrite (categorizePort_hit _ _ Eq). intros Hlabel.
    apply portCategories_lookup_entries in Eq.
    pose proof table_services_not_port_labels as HF.
    rewrite Forall_forall in HF. specialize (HF _ Eq). simpl in HF.
    by destruct (HF p).
  - rewrite (categorizePort_miss_service q Eq). apply port_label_inj.
Qed.

Lemma unlisted_label_identifies_port_witness :
  portCategories !! 8081 = None ∧
  service (categorizePort 8081) = "Port 8081" ∧
  ∀ q, service (categorizePort 8081) = service (categorizePort q) → 8081 = q.
Proof.
  assert (E : portCategories !! 8081 = None) by reflexivity.
  split; [exact E|]. split; [reflexivity|].
  intros q. exact (unlisted_label_identifies_port 8081 q E).
Defined.

(** ** The pages and the responses of the route *)

Lemma known_categories_palettes :
  Forall (λ c, is_Some (categoryColors !! c) ∧
               (home_categoryColors !! c = None ↔ c = "Other"))
    known_categories.
Proof. apply (bool_decide_unpack _). by vm_compute. Qed.

(** X12. The palettes of the pages cover the categories of the route:
    for every port the network page has an own palette entry for the
    category of the port, so its fallback to the palette of "Other" is
    not taken for a category that the route returns; the home page has
    an entry for every such category except "Other", for which alone it
    falls back to its default colour. *)
Theorem category_palettes_cover_route (p : Z) :
  is_Some (categoryColors !! category (categorizePort p)) ∧
  (home_categoryColors !! category (categorizePort p) = None ↔
   category (categorizePort p) = "Other") ∧
  ∀ L C, C ∈ buildCategories L →
    is_Some (categoryColors !! cat_category C) ∧
    (home_categoryColors !! cat_category C = None ↔ cat_category C = "Other").
Proof.
  pose proof known_categories_palettes as HF. rewrite Forall_forall in HF.
  split_and!.
  - apply HF, categorizePort_category_known.
  - apply HF, categorizePort_category_known.
  - intros L C (c & Hc & ->)%buildCategories_elem_of.
    apply HF. by apply (first_seen_known L).
Qed.

Lemma category_palettes_cover_route_witness :
  let L := [mkPortRow 7 "TCP" 10; mkPortRow 80 "TCP" 10] in
  let C := mkCategorySummary "Other" 10 [mkPortEntry 7 "Port 7" 10] in
  C ∈ buildCategories L ∧
  is_Some (categoryColors !! cat_category C) ∧
  home_categoryColors !! cat_category C = None.
Proof.
  intros L C.
  assert (HC : C ∈ buildCategories L) by (vm_compute; left).
  split; [exact HC|].
  destruct (category_palettes_cover_route 0) as (_ & _ & H).
  destruct (H L C HC) as [H1 _]. split; [exact H1|reflexivity].
Defined.

Lemma or_zero_id x : or_zero x = x.
Proof. unfold or_zero. by case_bool_decide. Qed.




(** X14. A failed request on the pages: when the database does not open
    or a read fails, the body that the pages receive has no lists. The
    network page then throws while it computes [totalTraffic]; the home
    page, which tests every list with [Array.isArray], shows zeros and
    empty lists for everything that comes from the traffic route. *)
Theorem failed_request_on_pages {DB} (getDB : option DB) (getAll : GetAll DB)
    (captureId : option string) (devicesData : option (list Device))
    (captures : list Capture) (selected : option Capture) :
  (getDB = None ∨
   ∃ db t, getDB = Some db ∧ read getAll db captureId t = None) →
  let received := body (GET getDB getAll captureId).1 in
  let stats := fetchData_stats devicesData received captures selected in
  totalTraffic (Some received) = None ∧
  totalCategoryTraffic (Some received) = 0 ∧
  totalDomains stats = 0 ∧ totalBytes stats = 0 ∧
  externalDestinations stats = 0 ∧ st_protocols stats = [] ∧
  st_categories stats = [] ∧ topTalkers stats = [] ∧
  securityServicesDetected stats = [].
Proof.
  intros Hfail received stats.
  assert (Herr : (GET getDB getAll captureId).1 = error_response).
  { destruct Hfail as [->|(db & t & -> & Ht)]; [done|].
    by apply (GET_read_fails getAll captureId db t). }
  subst stats received. rewrite Herr. by split_and!.
Qed.

Lemma failed_request_on_pages_witness :
  read (sql_getAll_failing_on tbl_destinations) example_db None
    tbl_destinations = None ∧
  totalTraffic
    (Some (body (GET (Some example_db)
                   (sql_getAll_failing_on tbl_destinations) None).1))
  = None.
Proof.
  assert (Hfail : read (sql_getAll_failing_on tbl_destinations) example_db
                    None tbl_destinations = None) by reflexivity.
  split; [exact Hfail|].
  destruct (failed_request_on_pages (Some example_db)
              (sql_getAll_failing_on tbl_destinations) None None [] None)
    as [H _]; [|exact H].
  right. exists example_db, tbl_destinations. by split.
Defined.

(** X15. The numbers of the home page are capped by the route: whatever
    the store holds, over a store that honours [LIMIT] the page counts
    at most 50 DNS domains and at most 20 external destinations, lists
    at most 5 top talkers and at most 14 categories. *)
Theorem home_stats_capped {DB} (getDB : option DB) (getAll : GetAll DB)
    (captureId : option string) (devicesData : option (list Device))
    (captures : list Capture) (selected : option Capture) :
  honours_limit getAll →
  let stats :=
    fetchData_stats devicesData (body (GET getDB getAll captureId).1)
      captures selected in
  0 ≤ totalDomains stats ≤ 50 ∧
  0 ≤ externalDestinations stats ≤ 20 ∧
  (length (topTalkers stats) ≤ 5)%nat ∧
  (length (st_categories stats) ≤ 14)%nat.
Proof.
  intros Hlimit stats. subst stats.
  destruct (GET_cases getDB getAll captureId)
    as [[-> _]|(db & p & po & ta & dn & de & _ & _ & _ & _ & H4 & H5 & ->)].
  { simpl. by split_and!; try lia. }
  cbn [fst body fetchData_stats totalDomains externalDestinations topTalkers
       st_categories from_option compose dnsDomains destinations talkers
       categories].
  pose proof (Hlimit _ _ _ _ _ _ H4 eq_refl) as Hdn.
  pose proof (Hlimit _ _ _ _ _ _ H5 eq_refl) as Hde.
  unfold array_length, slice0. rewrite length_take, buildCategories_length.
  split_and!.
  - apply Nat2Z.is_nonneg.
  - apply (Nat2Z.inj_le _ 50), Hdn.
  - apply Nat2Z.is_nonneg.
  - apply (Nat2Z.inj_le _ 20), Hde.
  - apply Nat.le_min_l.
  - change 14%nat with (length known_categories).
    apply submseteq_length, NoDup_submseteq; [apply first_seen_NoDup|].
    intros c. apply first_seen_known.
Qed.

Lemma home_stats_capped_witness :
  honours_limit sql_getAll ∧
  totalDomains
    (fetchData_stats None (body (GET (Some example_db) sql_getAll None).1)
       [] None) ≤ 50.
Proof.
  split; [exact sql_getAll_honours_limit|].
  destruct (home_stats_capped (Some example_db) sql_getAll None None [] None
              sql_getAll_honours_limit) as [[_ H] _].
  exact H.
Defined.

(** ** The security cards of the home page *)

Section SecurityCards.
Context {B : Type} (f : CategorySummary → list B).

Lemma find_category_cons (k : string) (c : CategorySummary) cats :
  snd <$> list_find (λ c, cat_category c = k) (c :: cats)
  = if decide (cat_category c = k) then Some c
    else snd <$> list_find (λ c, cat_category c = k) cats.
Proof.
  csimpl. case_decide; [done|].
  by destruct (list_find (λ c, cat_category c = k) cats) as [[i x]|].
Qed.

Lemma find_category_absent (k : string) cats :
  k ∉ cat_category <$> cats →
  snd <$> list_find (λ c, cat_category c = k) cats = None.
Proof.
  intros Hk.
  assert (Hnone : list_find (λ c, cat_category c = k) cats = None).
  { apply list_find_None, Forall_forall. intros c Hc <-.
    apply Hk. by apply list_elem_of_fmap_2. }
  by rewrite Hnone.
Qed.

(** Among categories of distinct names, those named [k] are the one that
    [find] returns, or none. *)
Lemma filter_category_find (k : string) cats :
  NoDup (cat_category <$> cats) →
  filter (λ c, cat_category c = k) cats ≫= f
  = from_option f [] (snd <$> list_find (λ c, cat_category c = k) cats).
Proof.
  induction cats as [|c cats IH]; [done|].
  rewrite fmap_cons, NoDup_cons. intros [Hc Hnd].
  rewrite find_category_cons, filter_cons. case_decide as Hk.
  - subst k. rewrite bind_cons, (IH Hnd), find_category_absent by done.
    simpl. by rewrite app_nil_r.
  - by apply IH.
Qed.

Lemma filter_security_split cats :
  length (filter (λ c, cat_category c ∈ securityCategories) cats ≫= f)
  = (length (filter (λ c, cat_category c = "Remote Access") cats ≫= f)
     + length (filter (λ c, cat_category c = "Database") cats ≫= f)
     + length (filter (λ c, cat_category c = "File Sharing") cats ≫= f))%nat.
Proof.
  induction cats as [|c cats IH]; [done|].
  rewrite !filter_cons.
  destruct (decide (cat_category c = "Remote Access")) as [H1|H1];
    [|destruct (decide (cat_category c = "Database")) as [H2|H2];
      [|destruct (decide (cat_category c = "File Sharing")) as [H3|H3]]].
  - rewrite decide_True by (rewrite H1; set_solver).
    rewrite !decide_False by (rewrite H1; discriminate).
    rewrite !bind_cons, !length_app, IH. lia.
  - rewrite decide_True by (rewrite H2; set_solver).
    rewrite decide_False by (rewrite H2; discriminate).
    rewrite !bind_cons, !length_app, IH. lia.
  - rewrite decide_True by (rewrite H3; set_solver).
    rewrite !bind_cons, !length_app, IH. lia.
  - rewrite decide_False; [done|].
    unfold securityCategories. rewrite !elem_of_cons, elem_of_nil. tauto.
Qed.
End SecurityCards.

Lemma buildCategories_ports_length L C :
  C ∈ buildCategories L → (1 ≤ length (cat_ports C) ≤ 5)%nat.
Proof.
  intros (c & Hc & ->)%buildCategories_elem_of.
  rewrite top5_ports_spec. cbn [cat_ports].
  rewrite topN_length, length_fmap.
  pose proof (rows_in_nonempty L c Hc) as Hne.
  destruct (rows_in c L) as [|row rows]; [done|].
  cbn [length]. clear Hne Hc. lia.
Qed.

Lemma security_card_services (stats : Stats) (name : string) :
  NoDup (cat_category <$> st_categories stats) →
  Z.of_nat (length (filter (λ c, cat_category c = name) (st_categories stats)
                      ≫= (λ c, pe_service <$> cat_ports c)))
  = default 0 (security_card stats name).
Proof.
  intros Hnd. rewrite filter_category_find by done. unfold security_card.
  destruct (list_find _ (st_categories stats)) as [[i c]|]; simpl; [|done].
  unfold array_length. by rewrite length_fmap.
Qed.

Lemma security_card_range L (stats : Stats) (name : string) (n : Z) :
  st_categories stats = buildCategories L →
  security_card stats name = Some n → 1 ≤ n ≤ 5.
Proof.
  intros Hst. unfold security_card. rewrite Hst.
  destruct (list_find _ (buildCategories L)) as [[i c]|] eqn:Hfind;
    simpl; [|done].
  intros [= <-]. apply list_find_Some in Hfind as (Hi & _ & _).
  apply list_elem_of_lookup_2, buildCategories_ports_length in Hi.
  unfold array_length. lia.
Qed.

(** X16. The security cards of the home page, for the categories that
    the route returns. The number of security-relevant services in the
    stat card is the sum of the numbers on the three cards "Remote
    Access", "Database" and "File Sharing"; a card that shows a number
    shows between 1 and 5, so the stat card shows at most 15; and the
    stat card says "No remote access" exactly when no port of the input
    is classified into one of the three categories. *)
Theorem security_services_of_route (L : list PortRow) (stats : Stats) :
  st_categories stats = buildCategories L →
  array_length (securityServicesDetected stats)
  = default 0 (security_card stats "Remote Access")
    + default 0 (security_card stats "Database")
    + default 0 (security_card stats "File Sharing") ∧
  (∀ name n, security_card stats name = Some n → 1 ≤ n ≤ 5) ∧
  array_length (securityServicesDetected stats) ≤ 15 ∧
  (securityServicesDetected stats = [] ↔
   ∀ row, row ∈ L →
     category (categorizePort (port row)) ∉ securityCategories).
Proof.
  intros Hst.
  assert (Hnd : NoDup (cat_category <$> st_categories stats)).
  { rewrite Hst. apply buildCategories_category_NoDup. }
  assert (Hsum : array_length (securityServicesDetected stats)
    = default 0 (security_card stats "Remote Access")
      + default 0 (security_card stats "Database")
      + default 0 (security_card stats "File Sharing")).
  { unfold array_length, securityServicesDetected.
    rewrite filter_security_split, !Nat2Z.inj_add.
    by rewrite !security_card_services. }
  assert (Hcard : ∀ name, 0 ≤ default 0 (security_card stats name) ≤ 5).
  { intros name. destruct (security_card stats name) as [n|] eqn:Hn;
      simpl; [|lia].
    pose proof (security_card_range L stats name n Hst Hn). lia. }
  split_and!.
  - exact Hsum.
  - intros name n. by apply (security_card_range L).
  - rewrite Hsum. pose proof (Hcard "Remote Access").
    pose proof (Hcard "Database"). pose proof (Hcard "File Sharing"). lia.
  - unfold securityServicesDetected. rewrite Hst. split.
    + intros Hnil row Hrow Hsec.
      set (C := top5_ports (summary_of L (category_of row))).
      assert (HC : C ∈ buildCategories L).
      { apply buildCategories_elem_of. exists (category_of row).
        split; [|done]. apply first_seen_elem_of. eauto. }
      destruct (cat_ports C) as [|e es] eqn:Hports.
      { apply buildCategories_ports_length in HC.
        rewrite Hports in HC. simpl in HC. lia. }
      assert (He : pe_service e ∈
                filter (λ c, cat_category c ∈ securityCategories)
                  (buildCategories L) ≫= (λ c, pe_service <$> cat_ports c)).
      { apply list_elem_of_bind. exists C. split.
        - rewrite Hports. left.
        - by apply list_elem_of_filter. }
      rewrite Hnil in He. by apply elem_of_nil in He.
    + intros Hnone.
      destruct (filter _ (buildCategories L)) as [|C Cs] eqn:Hf; [done|].
      assert (HC : C ∈ filter (λ c, cat_category c ∈ securityCategories)
                         (buildCategories L)) by (rewrite Hf; left).
      apply list_elem_of_filter in HC as [Hsec HC].
      apply buildCategories_elem_of in HC as (c & Hc & ->).
      apply first_seen_elem_of in Hc as (row & Hrow & <-).
      by destruct (Hnone row Hrow).
Qed.

(** Ports 22, 3306 and 80: one service on the remote access card, one on
    the database card, none on the file sharing card, two in all. *)
Lemma security_services_of_route_witness :
  let L := [mkPortRow 22 "TCP" 30; mkPortRow 3306 "TCP" 7;
            mkPortRow 80 "TCP" 100] in
  let stats :=
    fetchData_stats None
      (TrafficBody (mkTrafficData [] L [] [] [] (buildCategories L)))
      [] None in
  st_categories stats = buildCategories L ∧
  securityServicesDetected stats = ["SSH"; "MySQL"] ∧
  array_length (securityServicesDetected stats)
  = default 0 (security_card stats "Remote Access")
    + default 0 (security_card stats "Database")
    + default 0 (security_card stats "File Sharing").
Proof.
  intros L stats.
  assert (Hst : st_categories stats = buildCategories L) by reflexivity.
  split; [exact Hst|]. split; [by vm_compute|].
  destruct (security_services_of_route L stats Hst) as [H _]. exact H.
Defined.

(** ** The breakdowns of the home page *)

Section Breakdown.
Context (field : Device → option string).

Abbreviation key_of d := (or_Unknown (field d)).
Abbreviation devices_of k ds := (filter (λ d, or_Unknown (field d) = k) ds).

Lemma breakdown_snoc ds d :
  breakdown field (ds ++ [d])
  = <[key_of d :=
        or_zero (default 0 (breakdown field ds !! key_of d)) + 1]>
      (breakdown field ds).
Proof. unfold breakdown. by rewrite foldl_snoc. Qed.

Lemma breakdown_lookup ds k :
  breakdown field ds !! k
  = if decide (length (devices_of k ds) = 0%nat) then None
    else Some (Z.of_nat (length (devices_of k ds))).
Proof.
  induction ds as [|d ds IH] using rev_ind; [done|].
  rewrite breakdown_snoc, filter_app, length_app.
  destruct (decide (key_of d = k)) as [<-|Hk].
  - rewrite filter_cons_True, filter_nil by done.
    rewrite lookup_insert_eq, IH, or_zero_id. cbn [length]. clear IH.
    set (n := length (devices_of (key_of d) ds)).
    rewrite (decide_False (P := (n + 1 = 0)%nat)) by lia. f_equal.
    destruct (decide (n = 0%nat)) as [Hn|Hn]; simpl; lia.
  - rewrite filter_cons_False, filter_nil by done.
    rewrite lookup_insert_ne, IH by done. cbn [length].
    by rewrite Nat.add_0_r.
Qed.

Lemma breakdown_is_Some ds k :
  is_Some (breakdown field ds !! k) ↔ ∃ d, d ∈ ds ∧ key_of d = k.
Proof.
  rewrite breakdown_lookup. split.
  - case_decide as Hn; [by intros [? ?]|]. intros _.
    destruct (devices_of k ds) as [|d ds'] eqn:Hf; [done|].
    assert (Hd : d ∈ devices_of k ds) by (rewrite Hf; left).
    apply list_elem_of_filter in Hd as [? ?]. eauto.
  - intros (d & Hd & Hk).
    assert (Hin : d ∈ devices_of k ds) by by apply list_elem_of_filter.
    rewrite decide_False; [eauto|].
    intros Hn. destruct (devices_of k ds); [|done].
    by apply elem_of_nil in Hin.
Qed.

Lemma map_values_sum_insert (m : gmap string Z) k v :
  sum_Z ((map_to_list (<[k:=v]> m)).*2)
  = sum_Z ((map_to_list m).*2) + v - default 0 (m !! k).
Proof.
  assert (Hnew : ∀ m' : gmap string Z, m' !! k = None →
            sum_Z ((map_to_list (<[k:=v]> m')).*2)
            = sum_Z ((map_to_list m').*2) + v).
  { intros m' Hk. rewrite (map_to_list_insert m' k v Hk), fmap_cons.
    unfold sum_Z. cbn [foldr snd]. lia. }
  destruct (m !! k) as [v0|] eqn:Hk; simpl.
  - rewrite <-(insert_delete_eq m k v).
    rewrite Hnew by apply lookup_delete_eq.
    rewrite <-(insert_delete_id m k v0 Hk) at 2.
    rewrite (map_to_list_insert (delete k m) k v0) by apply lookup_delete_eq.
    rewrite fmap_cons. unfold sum_Z. cbn [foldr snd]. lia.
  - rewrite Hnew by done. lia.
Qed.

Lemma breakdown_total ds :
  sum_Z ((map_to_list (breakdown field ds)).*2) = Z.of_nat (length ds).
Proof.
  induction ds as [|d ds IH] using rev_ind.
  - unfold breakdown. simpl. by rewrite map_to_list_empty.
  - rewrite breakdown_snoc, map_values_sum_insert, IH, or_zero_id.
    rewrite length_app. simpl. lia.
Qed.

Lemma breakdown_size ds :
  size (breakdown field ds)
  = length (remove_dups ((λ d, or_Unknown (field d)) <$> ds)).
Proof.
  rewrite <-(size_dom (D:=gset string)).
  rewrite <-(size_list_to_set (C:=gset string)) by apply NoDup_remove_dups.
  f_equal. apply set_eq. intros k.
  rewrite elem_of_dom, breakdown_is_Some, elem_of_list_to_set.
  rewrite elem_of_remove_dups, list_elem_of_fmap. naive_solver.
Qed.
End Breakdown.

(** X17. The breakdowns of the home page are histograms. As long as no
    key is the name of a property inherited from [Object.prototype],
    the breakdown has a key exactly for the values that occur among the
    devices ("Unknown" standing for a missing or empty value), the
    number under a key is the number of devices with that value, the
    numbers add up to the number of devices, and the number of keys is
    the number of distinct values. *)
Theorem breakdown_is_histogram (field : Device → option string)
    (devices : list Device) :
  Forall (λ d, or_Unknown (field d) ∉ object_prototype_keys) devices →
  let with_key k := filter (λ d, or_Unknown (field d) = k) devices in
  (∀ k, is_Some (breakdown field devices !! k) ↔ with_key k ≠ []) ∧
  (∀ k n, breakdown field devices !! k = Some n →
          n = array_length (with_key k) ∧ 1 ≤ n) ∧
  sum_Z ((map_to_list (breakdown field devices)).*2) = array_length devices ∧
  size (breakdown field devices)
  = length (remove_dups ((λ d, or_Unknown (field d)) <$> devices)).
Proof.
  intros _ with_key. subst with_key. split_and!.
  - intros k. rewrite breakdown_lookup.
    case_decide as Hn.
    + split; [by intros [? ?]|]. intros Hne.
      by destruct (filter _ devices).
    + split; [|eauto]. intros _ Hnil. by rewrite Hnil in Hn.
  - intros k n. rewrite breakdown_lookup. case_decide as Hn; [done|].
    intros [= <-]. unfold array_length. split; [done|lia].
  - apply breakdown_total.
  - apply breakdown_size.
Qed.

(** Three devices, two of them without an OS guess. *)
Lemma breakdown_is_histogram_witness :
  let devices :=
    [mkDevice 1 "aa:bb" (Some "Apple") None;
     mkDevice 2 "cc:dd" None (Some "Linux");
     mkDevice 3 "ee:ff" (Some "Apple") (Some "")] in
  Forall (λ d, or_Unknown (os_guess d) ∉ object_prototype_keys) devices ∧
  breakdown os_guess devices !! "Unknown" = Some 2 ∧
  sum_Z ((map_to_list (breakdown os_guess devices)).*2) = 3.
Proof.
  intros devices.
  assert (Hkeys : Forall (λ d, or_Unknown (os_guess d) ∉ object_prototype_keys)
                    devices).
  { apply (bool_decide_unpack _). by vm_compute. }
  split; [exact Hkeys|]. split; [reflexivity|].
  destruct (breakdown_is_histogram os_guess devices Hkeys) as (_ & _ & H & _).
  exact H.
Defined.

(** ** The capture context *)

Lemma selection_valid_initial : selection_valid initial_context.
Proof. split; [done|]. by intros id. Qed.

Lemma selection_valid_step ctx ctx' :
  selection_valid ctx → context_step ctx ctx' → selection_valid ctx'.
Proof.
  intros [Hnone Hsome] Hstep. destruct Hstep as [outcome ctx|picked ctx Hl Hin].
  - destruct outcome as [|[[|first rest]|]]; try by split.
    split; [done|]. intros id [= <-]. exists first. split; [left|done].
  - split.
    + split; [done|]. intros Hnil. simpl in Hnil. rewrite Hnil in Hin.
      by apply elem_of_nil in Hin.
    + intros id [= <-]. by exists picked.
Qed.

Lemma loading_step ctx ctx' : context_step ctx ctx' → loading ctx' = false.
Proof. destruct 1 as [[|[[|??]|]] ctx|picked ctx Hl Hin]; done. Qed.

Lemma selectedCapture_found ctx id c :
  selectedCaptureId ctx = Some id → c ∈ captures ctx → cap_id c = id →
  ∃ c', selectedCapture ctx = Some c' ∧ cap_id c' = id ∧ c' ∈ captures ctx.
Proof.
  intros Hsel Hc Hid. unfold selectedCapture.
  destruct (list_find_elem_of (λ c, Some (cap_id c) = selectedCaptureId ctx)
              (captures ctx) c Hc) as [[i c'] Hfind].
  { by rewrite Hsel, Hid. }
  rewrite Hfind. exists c'. split; [done|].
  apply list_find_Some in Hfind as (Hi & Hp & _).
  rewrite Hsel in Hp. injection Hp as Hp.
  split; [done|]. by eapply list_elem_of_lookup_2.
Qed.

(** X18. The selection of the capture context never dangles. In every
    state that the provider reaches, by the fetch settling in whatever
    way and by the user picking options of the select, nothing is
    selected exactly when no captures are loaded, a selected id is the id
    of a loaded capture and [captures.find] returns a capture with that
    id; [loading] is true only in the state at mount. *)
Theorem capture_selection_valid (ctx : CaptureContextType) :
  context_reachable ctx →
  (selectedCaptureId ctx = None ↔ captures ctx = []) ∧
  (∀ id, selectedCaptureId ctx = Some id →
     ∃ c, selectedCapture ctx = Some c ∧ cap_id c = id ∧ c ∈ captures ctx) ∧
  (selectedCapture ctx = None ↔ selectedCaptureId ctx = None) ∧
  (loading ctx = true → ctx = initial_context).
Proof.
  intros Hreach.
  assert (Hvalid : selection_valid ctx ∧
                   (loading ctx = true → ctx = initial_context)).
  { unfold context_reachable in Hreach. revert ctx Hreach.
    apply (rtc_ind_r (λ ctx, selection_valid ctx ∧
                             (loading ctx = true → ctx = initial_context))).
    - split; [apply selection_valid_initial|done].
    - intros ctx ctx' _ Hstep [IH _].
      split; [by eapply selection_valid_step|].
      intros Hl. by rewrite (loading_step _ _ Hstep) in Hl. }
  destruct Hvalid as [[Hnone Hsome] Hloading].
  assert (Hfound : ∀ id, selectedCaptureId ctx = Some id →
            ∃ c, selectedCapture ctx = Some c ∧ cap_id c = id ∧
                 c ∈ captures ctx).
  { intros id Hid. destruct (Hsome id Hid) as (c & Hc & Hcid).
    by apply (selectedCapture_found ctx id c). }
  split_and!; [done..| |done].
  split.
  - intros Hsel. destruct (selectedCaptureId ctx) as [id|] eqn:Hid; [|done].
    destruct (Hfound id eq_refl) as (c & Hc & _). congruence.
  - intros Hsel. unfold selectedCapture. rewrite Hsel.
    destruct (list_find _ (captures ctx)) as [[i c]|] eqn:Hfind; [|done].
    by apply list_find_Some in Hfind as (_ & ? & _).
Qed.

(** Two captures are fetched and the user picks the second. *)
Lemma capture_selection_valid_witness :
  let c1 := mkCapture 4 "sensor" "eth0" "2026-01-02" 30 1200 7 in
  let c2 := mkCapture 3 "sensor" "eth0" "2026-01-01" 30 800 5 in
  let ctx := onChange c2 (fetchCaptures (FetchJson (Some [c1; c2]))
                            initial_context) in
  context_reachable ctx ∧
  ∃ c, selectedCapture ctx = Some c ∧ cap_id c = 3.
Proof.
  intros c1 c2 ctx.
  assert (Hreach : context_reachable ctx).
  { eapply rtc_l; [apply (step_fetch (FetchJson (Some [c1; c2])))|].
    eapply rtc_l; [|apply rtc_refl].
    apply (step_select c2); [reflexivity|]. right. left. }
  split; [exact Hreach|].
  destruct (capture_selection_valid ctx Hreach) as (_ & H & _).
  destruct (H 3 eq_refl) as (c & Hc & Hid & _).
  exists c. split; [exact Hc|exact Hid].
Defined.
